(** * Storage backends (FTP and SMB): a shallow embedding

    The two protocol adapters of [server/plugin/plg_backend_ftp_only/index.go]
    ([Ftp] and [Samba]) are embedded as state-passing functions.  Remote
    servers, the network and the protocol libraries ([goftp], [go-smb2]) are
    external: they appear as oracles threaded through an explicit state,
    and every call made to them is recorded in a log so that statements
    such as "no new connection" or "no rename was attempted" can be read
    off the log. *)

From Stdlib Require Import ZArith Ascii.
From stdpp Require Import gmap strings list fin_maps.

Local Open Scope Z_scope.

(** ** The parts of Go's [strings], [strconv] and [fmt] used by the adapters *)

Module GoStrings.

Definition HasPrefix (s pre : string) : bool := String.prefix pre s.

(** [s[n:]] for [n <= len(s)]. *)
Fixpoint drop (n : nat) (s : string) : string :=
  match n, s with
  | O, _ => s
  | S n', String _ s' => drop n' s'
  | S _, EmptyString => EmptyString
  end.

Definition TrimPrefix (s pre : string) : string :=
  if HasPrefix s pre then drop (String.length pre) s else s.

Definition HasSuffix (s suf : string) : bool :=
  (String.length suf <=? String.length s)%nat
  && bool_decide (drop (String.length s - String.length suf) s = suf).

Fixpoint in_cutset (cutset : string) (c : ascii) : bool :=
  match cutset with
  | EmptyString => false
  | String d cutset' => Ascii.eqb c d || in_cutset cutset' c
  end.

Fixpoint TrimLeft (s cutset : string) : string :=
  match s with
  | EmptyString => EmptyString
  | String c s' => if in_cutset cutset c then TrimLeft s' cutset else s
  end.

Fixpoint TrimRight (s cutset : string) : string :=
  match s with
  | EmptyString => EmptyString
  | String c s' =>
      match TrimRight s' cutset with
      | EmptyString => if in_cutset cutset c then EmptyString
                       else String c EmptyString
      | t => String c t
      end
  end.

Definition Trim (s cutset : string) : string :=
  TrimRight (TrimLeft s cutset) cutset.

(** [strings.Cut]: the text before and after the first occurrence of a
    separator, or [None] when [sep] does not occur in [s]. *)
Fixpoint Cut (s sep : string) : option (string * string) :=
  if HasPrefix s sep then Some (EmptyString, drop (String.length sep) s)
  else match s with
       | EmptyString => None
       | String c s' =>
           match Cut s' sep with
           | Some (a, b) => Some (String c a, b)
           | None => None
           end
       end.

Fixpoint explode (s : string) : list string :=
  match s with
  | EmptyString => []
  | String c s' => String c EmptyString :: explode s'
  end.

(** The loop of [genSplit]: cut at the first separator, keep the head,
    go on with the rest; the last piece is appended when no separator is
    left.  Every round of a non-empty separator consumes at least one
    byte, so [String.length s] rounds are enough. *)
Fixpoint genSplit (rounds : nat) (s sep : string) : list string :=
  match rounds with
  | O => [s]
  | S rounds' =>
      match Cut s sep with
      | None => [s]
      | Some (a, b) => a :: genSplit rounds' b sep
      end
  end.

Definition Split (s sep : string) : list string :=
  match sep with
  | EmptyString => explode s
  | _ => genSplit (String.length s) s sep
  end.

Definition Join (elems : list string) (sep : string) : string :=
  String.concat sep elems.

(** [fmt.Sprintf("%s:%s", a, b)] *)
Definition Sprintf_host_port (a b : string) : string := a +:+ ":" +:+ b.

Definition digit_of (c : ascii) : option Z :=
  let n := Z.of_nat (nat_of_ascii c) in
  if (48 <=? n) && (n <=? 57) then Some (n - 48) else None.

Fixpoint digits (acc : Z) (s : string) : option Z :=
  match s with
  | EmptyString => Some acc
  | String c s' =>
      match digit_of c with
      | Some d => digits (10 * acc + d) s'
      | None => None
      end
  end.

(** [strconv.Atoi] on a 64-bit platform: an optional sign, then one or
    more decimal digits; [None] stands for a non-nil error (syntax or
    range). *)
Definition Atoi (s : string) : option Z :=
  let unsigned (t : string) :=
    match t with
    | EmptyString => None
    | _ => digits 0 t
    end in
  let v :=
    match s with
    | String "+" t => unsigned t
    | String "-" t => Z.opp <$> unsigned t
    | _ => unsigned s
    end in
  match v with
  | Some n => if (- 2 ^ 63 <=? n) && (n <? 2 ^ 63) then Some n else None
  | None => None
  end.

End GoStrings.

(** ** What the adapters take from [server/common] and from Go's [os], [io] *)

Module Common.

(** How [os.IsPermission] and [os.IsNotExist] classify an error of the
    operating-system layer. *)
Inductive os_kind := OsPermission | OsNotExist | OsOther.

(** Modelled from the spec: the declarations of [server/common]
    ([NewError], the [Err...] values, [File], [AppCache]) are not among the
    sources.  The error values follow the taxonomy of the spec's error
    handling design: authentication-failed, not-found, permission-denied,
    not-allowed, not-implemented, and pass-through errors. *)
Inductive error :=
| ErrAuthenticationFailed
| ErrNotFound
| ErrPermissionDenied
| ErrNotAllowed
| ErrNotImplemented
| AppError (msg : string) (status : Z)      (* NewError(msg, status) *)
| FtpError (code : Z) (msg : string)        (* a value implementing goftp.Error *)
| OsError (kind : os_kind) (msg : string)   (* *os.PathError and the like *)
| EOF                                       (* io.EOF *)
| ErrClosedPipe                             (* io.ErrClosedPipe *)
| TransportError (msg : string).            (* anything else: net errors, ... *)

#[global] Instance os_kind_eq_dec : EqDecision os_kind.
Proof. solve_decision. Defined.

#[global] Instance error_eq_dec : EqDecision error.
Proof. solve_decision. Defined.

Definition NewError (msg : string) (status : Z) : error := AppError msg status.

Definition os_IsPermission (e : option error) : bool :=
  match e with Some (OsError OsPermission _) => true | _ => false end.

Definition os_IsNotExist (e : option error) : bool :=
  match e with Some (OsError OsNotExist _) => true | _ => false end.

(** [File{FName: ..., FType: ...}], the only two fields the adapters set. *)
Record File := mkFile { FName : string; FType : string }.

#[global] Instance File_eq_dec : EqDecision File.
Proof. solve_decision. Defined.

(** An [io.Reader] handed to a write: the bytes it delivers, then the error
    it ends with ([None] for a clean end of input). *)
Record Reader := mkReader { data : string; read_err : option error }.

(** [strings.NewReader(s)] *)
Definition NewReader (s : string) : Reader := mkReader s None.

(** Connection parameters: Go's [map[string]string].  Reading a missing
    key gives the empty string. *)
Definition param (params : gmap string string) (k : string) : string :=
  default EmptyString (params !! k).

(** Modelled from the spec: the Connection Cache of the component design
    ([AppCache] of [server/common], not among the sources): a size-bounded
    key-to-resource store, looked up by exact key equality; [Set] inserts or
    replaces; an entry that leaves the cache (replaced, or the least
    recently used one when the capacity is exceeded) is handed to the
    eviction callback.  The entries are kept most recently used first. *)
Section AppCache.
Context {V : Type}.

Record AppCache := mkCache {
  capacity : nat;
  entries : list (gmap string string * V)
}.

Definition NewAppCache (n : nat) : AppCache := mkCache n [].

Fixpoint assoc (k : gmap string string) (l : list (gmap string string * V))
  : option V :=
  match l with
  | [] => None
  | (k', v) :: l' => if decide (k' = k) then Some v else assoc k l'
  end.

Definition without (k : gmap string string)
    (l : list (gmap string string * V)) : list (gmap string string * V) :=
  filter (fun e => e.1 <> k) l.

(** [Get]: the value stored under [k], if any; a hit makes the entry the
    most recently used one. *)
Definition Get (k : gmap string string) (c : AppCache)
  : option V * AppCache :=
  match assoc k (entries c) with
  | Some v => (Some v, mkCache (capacity c) ((k, v) :: without k (entries c)))
  | None => (None, c)
  end.

(** [Set]: the new cache and the entries that left it, in the order in
    which the eviction callback sees them. *)
Definition Set_ (k : gmap string string) (v : V) (c : AppCache)
  : AppCache * list (gmap string string * V) :=
  let replaced := filter (fun e => e.1 = k) (entries c) in
  let l := (k, v) :: without k (entries c) in
  (mkCache (capacity c) (take (capacity c) l),
   replaced ++ drop (capacity c) l).

End AppCache.
Arguments AppCache : clear implicits.

(** The state every backend call runs in: the adapter's cache, the
    allocator of object identities (Go pointers), the remote side, and the
    log of the calls made to the remote side. *)
Record World (V E S : Type) := mkWorld {
  cache : AppCache V;
  next : nat;
  remote : S;
  log : list E
}.
Arguments mkWorld {V E S}.
Arguments cache {V E S}.
Arguments next {V E S}.
Arguments remote {V E S}.
Arguments log {V E S}.

End Common.

(** ** The SMB adapter ([package plg_backend_samba]) *)

Module Samba.
Import Common GoStrings.

(** The calls the adapter makes to [net] and [go-smb2].  Sessions, shares
    and open files are Go pointers; they are identified by the number
    under which they were allocated. *)
Inductive Cmd :=
| net_DialTimeout (addr : string) (seconds : Z)
| smb2_Dial (user password domain : string)
| Session_ListSharenames (session : nat)
| Session_Mount (session : nat) (name : string)
| Share_Umount (share : nat)
| Session_Logoff (session : nat)
| Share_Open (share : nat) (path : string)
| File_Readdir (file : nat)
| File_Close (file : nat)
| Share_Mkdir (share : nat) (path : string)
| Share_RemoveAll (share : nat) (path : string)
| Share_Rename (share : nat) (from to : string)
| Share_Create (share : nat) (path : string)
| File_Write (file : nat) (data : string).

#[global] Instance Cmd_eq_dec : EqDecision Cmd.
Proof. solve_decision. Defined.

(** What a call gives back beside its error. *)
Record Reply := mkReply {
  r_err : option error;
  r_names : list string;     (* ListSharenames *)
  r_infos : list File        (* Readdir *)
}.

(** The log keeps every call together with its answer. *)
Definition Event : Type := Cmd * Reply.

(** [type Samba struct { session *smb2.Session; share map[string]*smb2.Share }] *)
Record Samba := mkSamba {
  session : nat;
  share : gmap string nat
}.

#[global] Instance Samba_eq_dec : EqDecision Samba.
Proof. solve_decision. Defined.

Definition fromSambaErr (err : option error) : option error :=
  if os_IsPermission err then Some ErrPermissionDenied
  else if os_IsNotExist err then Some ErrNotFound
  else err.

Section Adapter.
(** The remote side: any state machine answering the calls. *)
Context {S : Type} (respond : Cmd -> S -> Reply * S).

Abbreviation World := (Common.World Samba Event S).

Definition call (c : Cmd) (w : World) : Reply * World :=
  let '(r, s') := respond c (remote w) in
  (r, mkWorld (cache w) (next w) s' (log w ++ [(c, r)])).

(** A successful call that returns a new object: its identity. *)
Definition alloc (w : World) : nat * World :=
  (next w, mkWorld (cache w) (Datatypes.S (next w)) (remote w) (log w)).

(** The callback registered with [SambaCache.OnEvict]: unmount every
    share of the evicted adapter, then log off; failures are only
    logged as warnings. *)
Definition onEvict (smb : Samba) (w : World) : World :=
  let w1 := foldl (fun w kv => (call (Share_Umount kv.2) w).2) w
                  (map_to_list (share smb)) in
  (call (Session_Logoff (session smb)) w1).2.

Definition cache_Set (params : gmap string string) (smb : Samba)
    (w : World) : World :=
  let '(c, evicted) := Set_ params smb (cache w) in
  foldl (fun w e => onEvict e.2 w)
        (mkWorld c (next w) (remote w) (log w)) evicted.

(** The loop of [Init] over the share names. *)
Fixpoint mount_all (sess : nat) (names : list string)
    (sh : gmap string nat) (w : World) : gmap string nat * World :=
  match names with
  | [] => (sh, w)
  | name :: rest =>
      if HasSuffix name "$" then mount_all sess rest sh w
      else
        let '(r, w1) := call (Session_Mount sess name) w in
        match r_err r with
        | None =>
            let '(m, w2) := alloc w1 in
            mount_all sess rest (<[name := m]> sh) w2
        | Some _ => mount_all sess rest sh w1
        end
  end.

Definition Init (params : gmap string string) (w : World)
  : option Samba * option error * World :=
  let '(c, cache') := Get params (cache w) in
  let w := mkWorld cache' (next w) (remote w) (log w) in
  match c with
  | Some smb => (Some smb, None, w)
  | None =>
      let port := if decide (param params "port" = "") then "445"
                  else param params "port" in
      let '(r, w) :=
        call (net_DialTimeout (Sprintf_host_port (param params "host") port) 10) w in
      match r_err r with
      | Some err => (None, Some err, w)
      | None =>
          let user := if decide (param params "username" = "") then "Guest"
                      else param params "username" in
          let '(r, w) :=
            call (smb2_Dial user (param params "password") (param params "domain")) w in
          match r_err r with
          | Some err => (None, Some err, w)
          | None =>
              let '(sess, w) := alloc w in
              let '(r, w) := call (Session_ListSharenames sess) w in
              match r_err r with
              | Some err => (None, Some err, w)
              | None =>
                  let '(sh, w) := mount_all sess (r_names r) ∅ w in
                  let s := mkSamba sess sh in
                  (Some s, None, cache_Set params s w)
              end
          end
      end
  end.

Definition toSambaPath (smb : Samba) (path : string)
  : option nat * string * option error :=
  let p := Split (Trim path "/") "/" in
  if decide (length p = 0%nat) then (None, "", Some ErrNotAllowed)
  else
    let sharename := hd "" p in
    let oPath := TrimLeft (Join (tl p) "\") "\" in
    match share smb !! sharename with
    | None => (None, "", Some ErrNotFound)
    | Some sh => (Some sh, oPath, None)
    end.

Definition Ls (smb : Samba) (path : string) (w : World)
  : list File * option error * World :=
  if decide (path = "/") then
    ((fun kv => mkFile kv.1 "directory") <$> map_to_list (share smb),
     None, w)
  else
    match toSambaPath smb path with
    | (Some sh, path, None) =>
        let '(r, w) := call (Share_Open sh path) w in
        match r_err r with
        | Some _ => ([], fromSambaErr (r_err r), w)
        | None =>
            let '(dir, w) := alloc w in
            let '(r, w) := call (File_Readdir dir) w in
            let '(_, w) := call (File_Close dir) w in
            (r_infos r, fromSambaErr (r_err r), w)
        end
    | (_, _, err) => ([], err, w)
    end.

(** The stream returned by [Cat] is the open file itself. *)
Definition Cat (smb : Samba) (path : string) (w : World)
  : option nat * option error * World :=
  match toSambaPath smb path with
  | (Some sh, path, None) =>
      let '(r, w) := call (Share_Open sh path) w in
      match r_err r with
      | Some _ => (None, fromSambaErr (r_err r), w)
      | None => let '(f, w) := alloc w in (Some f, fromSambaErr None, w)
      end
  | (_, _, err) => (None, err, w)
  end.

Definition Mkdir (smb : Samba) (path : string) (w : World)
  : option error * World :=
  match toSambaPath smb path with
  | (Some sh, path, None) =>
      let '(r, w) := call (Share_Mkdir sh path) w in (fromSambaErr (r_err r), w)
  | (_, _, err) => (err, w)
  end.

Definition Rm (smb : Samba) (path : string) (w : World)
  : option error * World :=
  match toSambaPath smb path with
  | (Some sh, path, None) =>
      let '(r, w) := call (Share_RemoveAll sh path) w in (fromSambaErr (r_err r), w)
  | (_, _, err) => (err, w)
  end.

Definition Mv (smb : Samba) (from to : string) (w : World)
  : option error * World :=
  match toSambaPath smb from with
  | (Some fromShare, fromPath, None) =>
      match toSambaPath smb to with
      | (Some toShare, toPath, None) =>
          if decide (fromShare <> toShare) then (Some ErrNotImplemented, w)
          else
            let '(r, w) := call (Share_Rename fromShare fromPath toPath) w in
            (fromSambaErr (r_err r), w)
      | (_, _, err) => (err, w)
      end
  | (_, _, err) => (err, w)
  end.

(** [io.Copy(f, content)]: the bytes of [content] are written to [f]
    (no write at all for an empty source); the first error of the
    source or of the destination ends the copy. *)
Definition io_Copy (f : nat) (content : Reader) (w : World)
  : option error * World :=
  match data content with
  | EmptyString => (read_err content, w)
  | d =>
      let '(r, w) := call (File_Write f d) w in
      match r_err r with
      | Some e => (Some e, w)
      | None => (read_err content, w)
      end
  end.

Definition Save (smb : Samba) (path : string) (content : Reader)
    (w : World) : option error * World :=
  match toSambaPath smb path with
  | (Some sh, path, None) =>
      let '(r, w) := call (Share_Create sh path) w in
      match r_err r with
      | Some _ => (fromSambaErr (r_err r), w)
      | None =>
          let '(f, w) := alloc w in
          let '(err, w) := io_Copy f content w in
          match err with
          | Some _ =>
              let '(_, w) := call (File_Close f) w in
              (fromSambaErr err, w)
          | None =>
              let '(r, w) := call (File_Close f) w in (r_err r, w)
          end
      end
  | (_, _, err) => (err, w)
  end.

Definition Touch (smb : Samba) (path : string) (w : World)
  : option error * World :=
  match toSambaPath smb path with
  | (Some sh, path, None) =>
      let '(r, w) := call (Share_Create sh path) w in
      match r_err r with
      | Some _ => (fromSambaErr (r_err r), w)
      | None =>
          let '(f, w) := alloc w in
          let '(r, w) := call (File_Close f) w in
          (fromSambaErr (r_err r), w)
      end
  | (_, _, err) => (err, w)
  end.

End Adapter.

End Samba.

(** ** The FTP adapter ([package plg_backend_ftp_only]) *)

Module Ftp.
Import Common GoStrings.

(** Of an [os.FileInfo] the adapter reads [Name()] and [IsDir()]. *)
Record FileInfo := mkInfo { Name : string; IsDir : bool }.

#[global] Instance FileInfo_eq_dec : EqDecision FileInfo.
Proof. solve_decision. Defined.

(** The fields of [goftp.Config] that [Init] sets; the timeout in seconds. *)
Record Config := mkConfig {
  User : string;
  Password : string;
  ConnectionsPerHost : Z;
  Timeout : Z
}.

(** The calls the adapter makes to [goftp]; a client is a Go pointer,
    identified by the number under which it was allocated. *)
Inductive Cmd :=
| DialConfig (config : Config) (addr : string)
| Client_ReadDir (client : nat) (path : string)
| Client_Getwd (client : nat)
| Client_Retrieve (client : nat) (path : string)
| Client_Mkdir (client : nat) (path : string)
| Client_Delete (client : nat) (path : string)
| Client_Rmdir (client : nat) (path : string)
| Client_Rename (client : nat) (from to : string)
| Client_Store (client : nat) (path : string) (src : Reader)
| Client_Close (client : nat).

(** What a call gives back beside its error. *)
Record Reply := mkReply {
  r_err : option error;
  r_infos : list FileInfo;    (* ReadDir *)
  r_data : string             (* Getwd; Retrieve: the bytes written to dest *)
}.

(** The log keeps every call together with its answer. *)
Definition Event : Type := Cmd * Reply.

(** [type Ftp struct { client *goftp.Client }] *)
Record Ftp := mkFtp { client : nat }.

#[global] Instance Ftp_eq_dec : EqDecision Ftp.
Proof. solve_decision. Defined.

(** [regexp.MustCompile(`\/$`).MatchString(p)]: the text ends in a slash. *)
Definition isDirectory (p : string) : bool := HasSuffix p "/".

(** The closure [transformError] of [Rm]. *)
Definition transformError (e : option error) : option error :=
  match e with
  | None => None
  | Some (FtpError code _) =>
      if (code <? 300) && (0 <? code) then None else e
  | Some _ => e
  end.

(** Lines 38 to 50 of [Init]: the defaults written into the caller's map. *)
Definition fill_defaults (params : gmap string string) : gmap string string :=
  let params := if decide (param params "hostname" = "")
                then <["hostname" := "localhost"]> params else params in
  let params := if decide (param params "port" = "")
                then <["port" := "21"]> params else params in
  let params := if decide (param params "username" = "")
                then <["username" := "anonymous"]> params else params in
  if decide (param params "username" = "anonymous"
             /\ param params "password" = "")
  then <["password" := "anonymous"]> params else params.

(** One of the first three steps of [fill_defaults], for the proofs. *)
Definition default_to (k0 d : string) (params : gmap string string)
  : gmap string string :=
  if decide (param params k0 = "") then <[k0 := d]> params else params.

(** Lines 51 to 56 of [Init]: the number of connections. *)
Definition conn_of (params : gmap string string) : Z :=
  if decide (param params "conn" <> "") then
    match Atoi (param params "conn") with
    | Some i => if 0 <? i then i else 5
    | None => 5
    end
  else 5.

Definition configWithoutTLS (params : gmap string string) : Config :=
  mkConfig (param params "username") (param params "password")
           (conn_of params) 10.

Definition dial_addr (params : gmap string string) : string :=
  Sprintf_host_port (TrimPrefix (param params "hostname") "ftp://")
                    (param params "port").

(** [io.Pipe]: how each end was closed, and the bytes written and not yet
    read.  (A Go pipe hands every write over to a read before the write
    returns; the reader sees the same bytes in the same order.) *)
Record Pipe := mkPipe {
  chunks : list string;
  rerr : option error;      (* set by closing the read end *)
  werr : option error       (* set by closing the write end *)
}.

Definition pipe_done (p : Pipe) : bool :=
  bool_decide (rerr p <> None) || bool_decide (werr p <> None).

(** [onceError.Store]: only the first error is kept. *)
Definition store_once (old new : option error) : option error :=
  match old with Some _ => old | None => new end.

(** [pr.CloseWithError(err)] *)
Definition closeRead (err : option error) (p : Pipe) : Pipe :=
  let err := match err with None => Some ErrClosedPipe | _ => err end in
  mkPipe (chunks p) (store_once (rerr p) err) (werr p).

(** [pw.CloseWithError(err)]; [pw.Close()] is [closeWrite None]. *)
Definition closeWrite (err : option error) (p : Pipe) : Pipe :=
  let err := match err with None => Some EOF | _ => err end in
  mkPipe (chunks p) (rerr p) (store_once (werr p) err).

Definition readCloseError (p : Pipe) : option error :=
  match rerr p, werr p with
  | None, Some e => Some e
  | _, _ => Some ErrClosedPipe
  end.

Definition writeCloseError (p : Pipe) : option error :=
  match werr p, rerr p with
  | None, Some e => Some e
  | _, _ => Some ErrClosedPipe
  end.

(** [pw.Write(b)] *)
Definition pipe_write (b : string) (p : Pipe) : option error * Pipe :=
  if pipe_done p then (writeCloseError p, p)
  else (None, mkPipe (chunks p ++ [b]) (rerr p) (werr p)).

(** [pr.Read]: the next bytes, or the error the pipe was closed with;
    [None] when the read would wait for the writer. *)
Definition pipe_read (p : Pipe) : option (string * option error * Pipe) :=
  match chunks p with
  | b :: rest => Some (b, None, mkPipe rest (rerr p) (werr p))
  | [] => if pipe_done p then Some ("", readCloseError p, p) else None
  end.

(** The goroutine started by [Cat]. *)
Inductive goroutine := Producer (f : Ftp) (path : string) (pipe : nat).

Section Adapter.
(** The remote side: any state machine answering the calls. *)
Context {S : Type} (respond : Cmd -> S -> Reply * S).

Abbreviation World := (Common.World Ftp Event S).

Definition call (c : Cmd) (w : World) : Reply * World :=
  let '(r, s') := respond c (remote w) in
  (r, mkWorld (cache w) (next w) s' (log w ++ [(c, r)])).

(** A successful call that returns a new object: its identity. *)
Definition alloc (w : World) : nat * World :=
  (next w, mkWorld (cache w) (Datatypes.S (next w)) (remote w) (log w)).

Definition Close (f : Ftp) (w : World) : option error * World :=
  let '(r, w) := call (Client_Close (client f)) w in (r_err r, w).

(** The callback registered with [FtpCache.OnEvict]. *)
Definition onEvict (c : Ftp) (w : World) : World := (Close c w).2.

Definition cache_Set (params : gmap string string) (backend : Ftp)
    (w : World) : World :=
  let '(c, evicted) := Set_ params backend (cache w) in
  foldl (fun w e => onEvict e.2 w)
        (mkWorld c (next w) (remote w) (log w)) evicted.

(** [Init] writes the defaults into the map it was given: the third
    component is that map as the caller finds it afterwards. *)
Definition Init (params : gmap string string) (w : World)
  : option Ftp * option error * gmap string string * World :=
  let '(c, cache') := Get params (cache w) in
  let w := mkWorld cache' (next w) (remote w) (log w) in
  match c with
  | Some d => (Some d, None, params, w)
  | None =>
      let params := fill_defaults params in
      let '(r, w) := call (DialConfig (configWithoutTLS params) (dial_addr params)) w in
      match r_err r with
      | Some err => (None, Some err, params, w)
      | None =>
          let '(client, w) := alloc w in
          let '(r, w) := call (Client_ReadDir client "/") w in
          match r_err r with
          | Some _ =>
              let '(_, w) := call (Client_Close client) w in
              (None, Some ErrAuthenticationFailed, params, w)
          | None =>
              let backend := mkFtp client in
              (Some backend, None, params, cache_Set params backend w)
          end
      end
  end.

Definition Home (f : Ftp) (w : World) : string * option error * World :=
  let '(r, w) := call (Client_Getwd (client f)) w in (r_data r, r_err r, w).

Definition Ls (f : Ftp) (path : string) (w : World)
  : list FileInfo * option error * World :=
  let '(r, w) := call (Client_ReadDir (client f) path) w in
  (r_infos r, r_err r, w).

Definition Mkdir (f : Ftp) (path : string) (w : World) : option error * World :=
  let '(r, w) := call (Client_Mkdir (client f) path) w in (r_err r, w).

(** The loop of [Rm] over the entries of a directory; [rm] is the recursive
    call.  [None] stands for a recursion deeper than the bound given to [Rm]. *)
Fixpoint Rm_entries (rm : string -> World -> option (option error * World))
    (path : string) (entries : list FileInfo) (w : World)
  : option (option error * World) :=
  match entries with
  | [] => Some (None, w)
  | entry :: rest =>
      let child := if IsDir entry then path +:+ Name entry +:+ "/"
                   else path +:+ Name entry in
      match rm child w with
      | None => None
      | Some (err, w) =>
          match transformError err with
          | Some _ => Some (err, w)
          | None => Rm_entries rm path rest w
          end
      end
  end.

(** [Rm], with a bound on the depth of the recursion. *)
Fixpoint Rm (depth : nat) (f : Ftp) (path : string) (w : World)
  : option (option error * World) :=
  match depth with
  | O => None
  | Datatypes.S depth' =>
      if isDirectory path then
        let '(entries, err, w) := Ls f path w in
        match transformError err with
        | Some _ => Some (err, w)
        | None =>
            match Rm_entries (Rm depth' f) path entries w with
            | None => None
            | Some (Some err, w) => Some (Some err, w)
            | Some (None, w) =>
                let '(r, w) := call (Client_Rmdir (client f) path) w in
                Some (transformError (r_err r), w)
            end
        end
      else
        let '(r, w) := call (Client_Delete (client f) path) w in
        Some (transformError (r_err r), w)
  end.


Definition Mv (f : Ftp) (from to : string) (w : World) : option error * World :=
  let '(r, w) := call (Client_Rename (client f) from to) w in (r_err r, w).

Definition Save (f : Ftp) (path : string) (file : Reader) (w : World)
  : option error * World :=
  let '(r, w) := call (Client_Store (client f) path file) w in (r_err r, w).

Definition Touch (f : Ftp) (path : string) (w : World) : option error * World :=
  let '(r, w) := call (Client_Store (client f) path (NewReader "")) w in
  (r_err r, w).

(** The adapter's world together with the Go runtime objects of [Cat]: the
    pipes, and the goroutines that were started and have not run yet. *)
Record Runtime := mkRuntime {
  world : World;
  pipes : gmap nat Pipe;
  goroutines : list goroutine
}.

(** [Cat] creates the pipe, starts the goroutine and returns the read end. *)
Definition Cat (f : Ftp) (path : string) (rt : Runtime)
  : nat * option error * Runtime :=
  let '(p, w) := alloc (world rt) in
  (p, None,
   mkRuntime w (<[p := mkPipe [] None None]> (pipes rt))
             (goroutines rt ++ [Producer f path p])).

(** The body of the goroutine: [Retrieve] writes what it receives to the
    write end; on failure the read end is closed with an error; the write
    end is closed in every case. *)
Definition run (g : goroutine) (w : World) (ps : gmap nat Pipe)
  : World * gmap nat Pipe :=
  match g with
  | Producer f path p =>
      let '(r, w) := call (Client_Retrieve (client f) path) w in
      let pipe := default (mkPipe [] None None) (ps !! p) in
      let pipe := match r_data r with
                  | EmptyString => pipe
                  | b => (pipe_write b pipe).2
                  end in
      let pipe := match r_err r with
                  | Some _ => closeRead (Some (NewError "Problem" 409)) pipe
                  | None => pipe
                  end in
      (w, <[p := closeWrite None pipe]> ps)
  end.

(** Let every started goroutine run to its end. *)
Definition run_all (rt : Runtime) : Runtime :=
  let '(w, ps) :=
    foldl (fun st g => run g st.1 st.2) (world rt, pipes rt) (goroutines rt) in
  mkRuntime w ps [].

(** The consumer drains the read end: the bytes read, and the error that
    ended the reading ([None] if it would have to wait). *)
Fixpoint drain (n : nat) (p : Pipe) : string * option error :=
  match n with
  | O => ("", None)
  | Datatypes.S n' =>
      match pipe_read p with
      | None => ("", None)
      | Some (b, Some e, _) => (b, Some e)
      | Some (b, None, p') =>
          let '(bs, e) := drain n' p' in (b +:+ bs, e)
      end
  end.

Definition ReadAll (pr : nat) (rt : Runtime) : string * option error :=
  match pipes rt !! pr with
  | Some p => drain (Datatypes.S (length (chunks p))) p
  | None => ("", Some ErrClosedPipe)
  end.

End Adapter.

(** Every key of the cache is a parameter map with the defaults filled in. *)
Definition keys_filled (c : AppCache Ftp) : Prop :=
  Forall (fun e => fill_defaults e.1 = e.1) (entries c).

(** A call that lists or deletes, made through [client], on a path that
    starts with [path]. *)
Definition below (path : string) (client : nat) (ev : Event) : Prop :=
  exists q,
    (ev.1 = Client_ReadDir client q \/ ev.1 = Client_Delete client q \/
     ev.1 = Client_Rmdir client q) /\
    HasPrefix q path = true.

(** From [w] to [w'] nothing happened but calls that are [below] the path. *)
Definition quiet {S} (path : string) (client : nat)
    (w w' : Common.World Ftp Event S) : Prop :=
  cache w' = cache w /\ next w' = next w /\
  exists evs, log w' = log w ++ evs /\ Forall (below path client) evs.




End Ftp.

(** ** A model of an FTP server

    The remote side of the FTP adapter is an oracle; this is the instance
    used to state what the adapter achieves on a well-behaved server: a
    tree of files and directories, where [DELE] removes one file and [RMD]
    one empty directory.  A directory's entries are kept in listing order
    (first entry, then the rest), so a whole directory content is a
    [forest]. *)

Module FtpServer.
Import Common GoStrings Ftp.

Inductive forest :=
| Nil
| ConsFile (name : string) (rest : forest)
| ConsDir (name : string) (children : forest) (rest : forest).

(** The listing of a directory content. *)
Fixpoint infos (f : forest) : list FileInfo :=
  match f with
  | Nil => []
  | ConsFile n r => mkInfo n false :: infos r
  | ConsDir n _ r => mkInfo n true :: infos r
  end.

(** Every entry below [base], by its full path (a directory is addressed
    with a trailing slash), with the flag "is a directory". *)
Fixpoint nodes (base : string) (f : forest) : list (string * bool) :=
  match f with
  | Nil => []
  | ConsFile n r => (base +:+ n, false) :: nodes base r
  | ConsDir n cs r =>
      (base +:+ n +:+ "/", true)
        :: nodes (base +:+ n +:+ "/") cs ++ nodes base r
  end.

(** The content of the directory addressed by [p]. *)
Fixpoint lookup_dir (base : string) (f : forest) (p : string) : option forest :=
  match f with
  | Nil => None
  | ConsFile _ r => lookup_dir base r p
  | ConsDir n cs r =>
      if decide (base +:+ n +:+ "/" = p) then Some cs
      else match lookup_dir (base +:+ n +:+ "/") cs p with
           | Some x => Some x
           | None => lookup_dir base r p
           end
  end.

(** Drop the entry addressed by [p]. *)
Fixpoint remove (base : string) (f : forest) (p : string) : forest :=
  match f with
  | Nil => Nil
  | ConsFile n r =>
      if decide (base +:+ n = p) then remove base r p
      else ConsFile n (remove base r p)
  | ConsDir n cs r =>
      if decide (base +:+ n +:+ "/" = p) then remove base r p
      else ConsDir n (remove (base +:+ n +:+ "/") cs p) (remove base r p)
  end.

(** The depth of the deepest entry. *)
Fixpoint height (f : forest) : nat :=
  match f with
  | Nil => O
  | ConsFile _ r => Nat.max 1 (height r)
  | ConsDir _ cs r => Nat.max (Datatypes.S (height cs)) (height r)
  end.

Definition refused (msg : string) : Reply :=
  mkReply (Some (FtpError 550 msg)) [] "".

Section Server.
(** [ack]: what the client library reports for a command that the server
    completed ([None], or an error value carrying the positive reply).
    [denied]: the paths the server refuses to delete. *)
Context (ack : option error) (denied : string -> bool).

Definition respond (c : Cmd) (fs : forest) : Reply * forest :=
  match c with
  | DialConfig _ _ | Client_Close _ => (mkReply None [] "", fs)
  | Client_ReadDir _ p =>
      match lookup_dir "" fs p with
      | Some cs => (mkReply ack (infos cs) "", fs)
      | None => (refused "No such directory", fs)
      end
  | Client_Delete _ p =>
      if denied p then (refused "Permission denied", fs)
      else if bool_decide ((p, false) ∈ nodes "" fs)
           then (mkReply ack [] "", remove "" fs p)
           else (refused "No such file", fs)
  | Client_Rmdir _ p =>
      if denied p then (refused "Permission denied", fs)
      else match lookup_dir "" fs p with
           | Some Nil => (mkReply ack [] "", remove "" fs p)
           | Some _ => (refused "Directory not empty", fs)
           | None => (refused "No such directory", fs)
           end
  | _ => (mkReply (Some (FtpError 502 "Command not implemented")) [] "", fs)
  end.

End Server.

(** A server tree is well formed when no two entries have the same full
    path and exactly the directories are addressed with a trailing slash
    (names are not empty and contain no slash, siblings differ). *)
Definition wf (fs : forest) : Prop :=
  NoDup (nodes "" fs).*1 /\
  Forall (fun x => isDirectory x.1 = x.2) (nodes "" fs).

(** The content of the directory addressed by [p] becomes [new]. *)
Fixpoint set_children (base : string) (f : forest) (p : string)
    (new : forest) : forest :=
  match f with
  | Nil => Nil
  | ConsFile n r => ConsFile n (set_children base r p new)
  | ConsDir n cs r =>
      if decide (base +:+ n +:+ "/" = p)
      then ConsDir n new (set_children base r p new)
      else ConsDir n (set_children (base +:+ n +:+ "/") cs p new)
                   (set_children base r p new)
  end.

(** The first entry of a directory content, by its full path. *)
Definition head_path (p : string) (old : forest) : option string :=
  match old with
  | Nil => None
  | ConsFile n _ => Some (p +:+ n)
  | ConsDir n _ _ => Some (p +:+ n +:+ "/")
  end.

Definition tail_of (old : forest) : forest :=
  match old with
  | Nil => Nil
  | ConsFile _ r => r
  | ConsDir _ _ r => r
  end.

(** The exchange between [Rm] and the server when the content [f] of the
    directory [base] is deleted: depth first, in listing order. *)
Fixpoint rm_events (ack : option error) (client : nat) (base : string)
    (f : forest) : list Event :=
  match f with
  | Nil => []
  | ConsFile n r =>
      (Client_Delete client (base +:+ n), mkReply ack [] "")
        :: rm_events ack client base r
  | ConsDir n cs r =>
      (Client_ReadDir client (base +:+ n +:+ "/"), mkReply ack (infos cs) "")
        :: rm_events ack client (base +:+ n +:+ "/") cs
        ++ (Client_Rmdir client (base +:+ n +:+ "/"), mkReply ack [] "")
        :: rm_events ack client base r
  end.



(** The tree used in the examples:
    [/docs/a.txt], [/docs/old/b.txt], [/docs/old/c.txt], [/docs/z.txt],
    [/readme]. *)
Definition example_tree : forest :=
  ConsDir ""
    (ConsDir "docs"
       (ConsFile "a.txt"
          (ConsDir "old" (ConsFile "b.txt" (ConsFile "c.txt" Nil))
             (ConsFile "z.txt" Nil)))
       (ConsFile "readme" Nil))
    Nil.

End FtpServer.

(** ** Remote sides and adapters used in the examples *)

Module Examples.
Import Common GoStrings FtpServer.

Section SambaExamples.
Import Samba.

(** A remote side for the examples: every call succeeds; the server
    exports the shares [shareA], [shareB] and the administrative [IPC$]. *)
Definition friendly (c : Cmd) (s : unit) : Reply * unit :=
  match c with
  | Session_ListSharenames _ => (mkReply None ["shareA"; "IPC$"; "shareB"] [], s)
  | _ => (mkReply None [] [], s)
  end.

Definition two_shares : Samba :=
  mkSamba 0 (<["shareA" := 1%nat]> (<["shareB" := 2%nat]> ∅)).

Definition smb_world0 : World Samba Event unit :=
  mkWorld (NewAppCache 30) 0 tt [].

(** A remote side on which closing a file is refused. *)
Definition close_denied (c : Cmd) (s : unit) : Reply * unit :=
  match c with
  | File_Close _ => (mkReply (Some (OsError OsPermission "access denied")) [] [], s)
  | _ => (mkReply None [] [], s)
  end.

(** A remote side on which no file can be opened: the connection is gone. *)
Definition open_fails (c : Cmd) (s : unit) : Reply * unit :=
  match c with
  | Share_Open _ _ => (mkReply (Some (TransportError "connection reset")) [] [], s)
  | _ => (mkReply None [] [], s)
  end.

(** A remote side that accepts the session and then fails to enumerate
    the shares. *)
Definition list_fails (c : Cmd) (s : unit) : Reply * unit :=
  match c with
  | Session_ListSharenames _ =>
      (mkReply (Some (TransportError "broken pipe")) [] [], s)
  | _ => (mkReply None [] [], s)
  end.

End SambaExamples.

(** A server that completes every command and denies nothing. *)
Definition plain : Ftp.Cmd -> forest -> Ftp.Reply * forest :=
  FtpServer.respond None (fun _ => false).

Definition ftp_world0 : World Ftp.Ftp Ftp.Event forest :=
  mkWorld (NewAppCache 2) 0 example_tree [].

(** The same server without any directory, not even the root. *)
Definition ftp_world_noroot : World Ftp.Ftp Ftp.Event forest :=
  mkWorld (NewAppCache 2) 0 Nil [].

(** A server that refuses to delete [/docs/old/b.txt]. *)
Definition guarded : Ftp.Cmd -> forest -> Ftp.Reply * forest :=
  FtpServer.respond None (fun p => bool_decide (p = "/docs/old/b.txt")).

(** A server whose transfers break after the first bytes. *)
Definition broken_transfer (c : Ftp.Cmd) (s : unit) : Ftp.Reply * unit :=
  match c with
  | Ftp.Client_Retrieve _ _ =>
      (Ftp.mkReply (Some (TransportError "connection reset")) [] "abc", s)
  | _ => (Ftp.mkReply None [] "", s)
  end.

Definition ftp_runtime0 : Ftp.Runtime (S := unit) :=
  Ftp.mkRuntime (mkWorld (NewAppCache 2) 0 tt []) ∅ [].

Definition is_dial (e : Ftp.Event) : bool :=
  match e.1 with Ftp.DialConfig _ _ => true | _ => false end.

End Examples.

(** ** Vocabulary for statements about paths *)

Module PathSpec.

(** The byte [c] occurs in [s]. *)
Fixpoint byte_in (c : ascii) (s : string) : bool :=
  match s with
  | EmptyString => false
  | String d s' => Ascii.eqb d c || byte_in c s'
  end.

(** A path segment: not empty, and without forward slash. *)
Definition segment (s : string) : Prop :=
  s <> EmptyString /\ byte_in "/" s = false.

(** [Ls] of a directory, [Save] and [Touch] close what they open: either
    no handle was allocated, or exactly one was and the last call made is
    the [Close] of that handle. *)
Definition closes_its_handle {S} (w w' : Common.World Samba.Samba Samba.Event S)
  : Prop :=
  (Common.next w' = Common.next w) \/
  (Common.next w' = Datatypes.S (Common.next w) /\
   exists evs r, Common.log w' = Common.log w ++ evs ++ [(Samba.File_Close (Common.next w), r)]).

End PathSpec.

(** * Properties *)

Example Split_example :
  GoStrings.Split "shareA/sub/file.txt" "/" = ["shareA"; "sub"; "file.txt"].
Proof. reflexivity. Qed.

Example Split_empty : GoStrings.Split "" "/" = [""].
Proof. reflexivity. Qed.

Example Trim_example : GoStrings.Trim "//a/b//" "/" = "a/b".
Proof. reflexivity. Qed.

Example Atoi_examples :
  GoStrings.Atoi "12" = Some 12 /\ GoStrings.Atoi "-3" = Some (-3) /\
  GoStrings.Atoi "" = None /\ GoStrings.Atoi "1x" = None /\
  GoStrings.Atoi "9223372036854775808" = None.
Proof. repeat split; reflexivity. Qed.

Module CacheFacts.
Import Common.

Section AppCache.
Context {V : Type}.
Implicit Types (k : gmap string string) (c : AppCache V).

Lemma assoc_without_ne k k' (l : list (gmap string string * V)) : k <> k' -> assoc k (without k' l) = assoc k l.
Proof.
  intros Hne. induction l as [|[k0 v0] l IH]; [done|].
  unfold without in *. rewrite filter_cons. simpl.
  destruct (decide (k0 <> k')) as [Hk|Hk]; simpl.
  - destruct (decide (k0 = k)); auto.
  - destruct (decide (k0 = k)) as [->|]; [|auto].
    exfalso. apply Hk. congruence.
Qed.

Lemma assoc_without_eq k (l : list (gmap string string * V)) : assoc k (without k l) = None.
Proof.
  induction l as [|[k0 v0] l IH]; [done|].
  unfold without in *. rewrite filter_cons. simpl.
  destruct (decide (k0 <> k)) as [Hk|Hk]; simpl; [|done].
  destruct (decide (k0 = k)); [done|auto].
Qed.

(** A lookup right after an insertion under the same key hits, as soon
    as the cache has room for one entry. *)
Lemma Get_Set k (v : V) c :
  (0 < capacity c)%nat -> (Get k (Set_ k v c).1).1 = Some v.
Proof.
  intros Hcap. unfold Get, Set_. simpl.
  destruct (capacity c) as [|n]; [lia|]. simpl.
  rewrite decide_True by done. done.
Qed.

Lemma Get_miss_unchanged k c : (Get k c).1 = None -> (Get k c).2 = c.
Proof. unfold Get. by destruct (assoc k (entries c)). Qed.

End AppCache.

End CacheFacts.

(** ** The SMB adapter *)

Module SambaFacts.
Import Common GoStrings Samba CacheFacts Examples.

Example toSambaPath_nested :
  toSambaPath two_shares "shareA/sub/file.txt" = (Some 1%nat, "sub\file.txt", None).
Proof. vm_compute. reflexivity. Qed.

Example toSambaPath_slashes :
  toSambaPath two_shares "/shareB//x/" = (Some 2%nat, "x", None).
Proof. vm_compute. reflexivity. Qed.

Example toSambaPath_unknown :
  toSambaPath two_shares "shareC/sub" = (None, "", Some ErrNotFound).
Proof. vm_compute. reflexivity. Qed.

Example Init_friendly :
  (Init friendly ∅ smb_world0).1.1 =
  Some (mkSamba 0 (<["shareA" := 1%nat]> (<["shareB" := 2%nat]> ∅))).
Proof. vm_compute. reflexivity. Qed.

(** *** Path resolution *)

Lemma genSplit_nonempty n s sep : genSplit n s sep <> [].
Proof. destruct n; simpl; [done|]. by destruct (Cut s sep) as [[a b]|]. Qed.

(** [strings.Split] with a non-empty separator never returns an empty
    slice: the text without separator is one (possibly empty) piece. *)
Lemma Split_nonempty s sep : sep <> "" -> Split s sep <> [].
Proof.
  intros Hsep. unfold Split. destruct sep; [done|]. apply genSplit_nonempty.
Qed.

Lemma toSambaPath_never_NotAllowed smb path :
  (toSambaPath smb path).2 <> Some ErrNotAllowed.
Proof.
  unfold toSambaPath.
  destruct (decide _) as [Hlen|_].
  - exfalso. apply (Split_nonempty (Trim path "/") "/"); [done|].
    by apply nil_length_inv.
  - by destruct (share smb !! _).
Qed.

(** A first segment that names no mounted share: not found. *)
Lemma toSambaPath_unmounted smb path :
  share smb !! hd "" (Split (Trim path "/") "/") = None ->
  toSambaPath smb path = (None, "", Some ErrNotFound).
Proof.
  intros Hs. unfold toSambaPath.
  destruct (decide _) as [Hlen|_].
  - exfalso. apply (Split_nonempty (Trim path "/") "/"); [done|].
    by apply nil_length_inv.
  - by rewrite Hs.
Qed.

(** C2 (code defect).  The claim: resolving an empty path returns the
    not-allowed error.  The code: [strings.Split] of the trimmed empty path
    is the one-element slice [[""]], so the guard [len(p) == 0] is never
    taken; no path at all resolves to not-allowed, and the empty path (like
    ["/"]) is looked up as the share named [""] and reported as not found. *)
Theorem toSambaPath_empty_path :
  (forall smb path, (toSambaPath smb path).2 <> Some ErrNotAllowed) /\
  toSambaPath two_shares "" = (None, "", Some ErrNotFound) /\
  toSambaPath two_shares "/" = (None, "", Some ErrNotFound).
Proof.
  split; [apply toSambaPath_never_NotAllowed|].
  split; vm_compute; reflexivity.
Qed.

(** *** Rename *)

Section Calls.
Context {S : Type} (respond : Cmd -> S -> Reply * S).
Implicit Types (w : World Samba Event S) (smb : Samba).

Lemma smb_call_eq c w :
  call respond c w =
  ((respond c (remote w)).1,
   mkWorld (cache w) (next w) (respond c (remote w)).2
           (log w ++ [(c, (respond c (remote w)).1)])).
Proof. unfold call. by destruct (respond c (remote w)). Qed.

(** C7.  When the two paths of a rename resolve to two different shares,
    [Mv] returns the not-implemented error and leaves the world as it was:
    no call reaches either share.  When they resolve to the same share, the
    rename is one [Rename] call on that share, its error normalised. *)
Theorem Mv_across_shares smb from to w s1 p1 s2 p2 :
  toSambaPath smb from = (Some s1, p1, None) ->
  toSambaPath smb to = (Some s2, p2, None) ->
  (s1 <> s2 -> Mv respond smb from to w = (Some ErrNotImplemented, w)) /\
  (s1 = s2 ->
   Mv respond smb from to w =
   (fromSambaErr (r_err (call respond (Share_Rename s1 p1 p2) w).1),
    (call respond (Share_Rename s1 p1 p2) w).2)).
Proof.
  intros Hfrom Hto. unfold Mv. rewrite Hfrom, Hto.
  split; intros Hs.
  - by rewrite decide_True.
  - rewrite decide_False by (intros Hne; by apply Hne).
    by destruct (call respond (Share_Rename s1 p1 p2) w).
Qed.

(** *** Listing the shares *)

(** The mount loop makes [Mount] calls only, each for a listed name without
    the [$] suffix; afterwards the share table holds what it held before
    and every name for which one of these calls succeeded. *)
Lemma mount_all_spec sess names sh w sh' w' :
  mount_all respond sess names sh w = (sh', w') ->
  exists evs,
    log w' = log w ++ evs /\ cache w' = cache w /\
    (forall c r, (c, r) ∈ evs ->
       exists name, c = Session_Mount sess name /\ name ∈ names /\
                    HasSuffix name "$" = false) /\
    (forall name,
       is_Some (sh' !! name) <->
       is_Some (sh !! name) \/
       exists r, (Session_Mount sess name, r) ∈ evs /\ r_err r = None).
Proof.
  revert sh w. induction names as [|name0 rest IH]; intros sh w Hm; simpl in Hm.
  - inversion Hm; subst. exists []. rewrite app_nil_r.
    repeat split; try done.
    + intros c r Hin. by apply elem_of_nil in Hin.
    + by left.
    + intros [H|(r & Hin & _)]; [done|]. by apply elem_of_nil in Hin.
  - destruct (HasSuffix name0 "$") eqn:Hsuf.
    + destruct (IH _ _ Hm) as (evs & Hlog & Hc & Hcmd & Hdom).
      exists evs. repeat split; try done; try apply Hdom.
      intros c r Hin. destruct (Hcmd c r Hin) as (name & -> & Hn & Hs).
      exists name. repeat split; [by apply elem_of_cons; right|done].
    + rewrite smb_call_eq in Hm.
      set (r0 := (respond (Session_Mount sess name0) (remote w)).1) in *.
      destruct (r_err r0) eqn:Herr;
        destruct (IH _ _ Hm) as (evs & Hlog & Hc & Hcmd & Hdom); simpl in *;
        exists ((Session_Mount sess name0, r0) :: evs);
        rewrite Hlog, <- app_assoc; (split; [done|]); (split; [done|]); split.
      * intros c r Hin. apply elem_of_cons in Hin as [Heq|Hin].
        -- inversion Heq; subst. exists name0. by rewrite elem_of_cons; auto.
        -- destruct (Hcmd c r Hin) as (name & -> & Hn & Hs).
           exists name. by rewrite elem_of_cons; auto.
      * intros name. rewrite Hdom. split.
        -- intros [Hs|(r & Hr & Hok)]; [by left|].
           right. exists r. by rewrite elem_of_cons; auto.
        -- intros [Hs|(r & Hr & Hok)]; [by left|].
           apply elem_of_cons in Hr as [Heq|Hr]; [|by eauto].
           inversion Heq; subst. congruence.
      * intros c r Hin. apply elem_of_cons in Hin as [Heq|Hin].
        -- inversion Heq; subst. exists name0. by rewrite elem_of_cons; auto.
        -- destruct (Hcmd c r Hin) as (name & -> & Hn & Hs).
           exists name. by rewrite elem_of_cons; auto.
      * intros name. rewrite Hdom. rewrite lookup_insert_is_Some. split.
        -- intros [[<-|[_ Hs]]|(r & Hr & Hok)].
           ++ right. exists r0. by rewrite elem_of_cons; auto.
           ++ by left.
           ++ right. exists r. by rewrite elem_of_cons; auto.
        -- intros [Hs|(r & Hr & Hok)].
           ++ left. destruct (decide (name0 = name)); auto.
           ++ apply elem_of_cons in Hr as [Heq|Hr]; [|by eauto].
              inversion Heq; subst. auto.
Qed.

Definition cleanup_cmd (c : Cmd) : Prop :=
  (exists h, c = Share_Umount h) \/ (exists s, c = Session_Logoff s).

Lemma umount_all_log (l : list (string * nat)) w :
  exists evs,
    log (foldl (fun w kv => (call respond (Share_Umount kv.2) w).2) w l)
    = log w ++ evs /\
    forall c r, (c, r) ∈ evs -> cleanup_cmd c.
Proof.
  revert w. induction l as [|kv l IH]; intros w; simpl.
  - exists []. rewrite app_nil_r. split; [done|].
    intros c r Hin. by apply elem_of_nil in Hin.
  - destruct (IH (call respond (Share_Umount kv.2) w).2) as (evs & -> & Hc).
    rewrite smb_call_eq. simpl. eexists (_ :: evs). rewrite <- app_assoc.
    split; [done|]. intros c r Hin.
    apply elem_of_cons in Hin as [Heq|Hin]; [|by eauto].
    inversion Heq; subst. left. eauto.
Qed.

Lemma onEvict_log smb w :
  exists evs, log (onEvict respond smb w) = log w ++ evs /\
              forall c r, (c, r) ∈ evs -> cleanup_cmd c.
Proof.
  unfold onEvict.
  destruct (umount_all_log (map_to_list (share smb)) w) as (evs & Hl & Hc).
  rewrite smb_call_eq. simpl. rewrite Hl. exists (evs ++ [(Session_Logoff (session smb),
    (respond (Session_Logoff (session smb))
       (remote (foldl (fun w kv => (call respond (Share_Umount kv.2) w).2) w
                      (map_to_list (share smb))))).1)]).
  rewrite <- app_assoc. split; [done|]. intros c r Hin.
  apply elem_of_app in Hin as [Hin|Hin]; [by eauto|].
  apply list_elem_of_singleton in Hin. inversion Hin; subst. right. eauto.
Qed.

Lemma smb_evict_all_log (l : list (gmap string string * Samba)) w :
  exists evs, log (foldl (fun w e => onEvict respond e.2 w) w l) = log w ++ evs /\
              forall c r, (c, r) ∈ evs -> cleanup_cmd c.
Proof.
  revert w. induction l as [|e l IH]; intros w; simpl.
  - exists []. rewrite app_nil_r. split; [done|].
    intros c r Hin. by apply elem_of_nil in Hin.
  - destruct (IH (onEvict respond e.2 w)) as (evs & -> & Hc).
    destruct (onEvict_log e.2 w) as (evs0 & -> & Hc0).
    exists (evs0 ++ evs). rewrite <- app_assoc. split; [done|].
    intros c r Hin. apply elem_of_app in Hin as [Hin|Hin]; eauto.
Qed.

Lemma smb_cache_Set_log params smb w :
  exists evs, log (cache_Set respond params smb w) = log w ++ evs /\
              forall c r, (c, r) ∈ evs -> cleanup_cmd c.
Proof.
  unfold cache_Set. destruct (Set_ params smb (cache w)) as [c evicted].
  apply (smb_evict_all_log evicted (mkWorld c (next w) (remote w) (log w))).
Qed.

(** What [Init] does on a cache miss that ends well: the shares are
    enumerated once, and the share table of the new adapter holds exactly
    the enumerated names without [$] suffix that could be mounted. *)
Lemma Init_share_table params w s w' :
  (Get params (cache w)).1 = None ->
  Init respond params w = (Some s, None, w') ->
  exists r_list evs,
    log w' = log w ++ evs /\
    (forall r, (Session_ListSharenames (session s), r) ∈ evs <-> r = r_list) /\
    r_err r_list = None /\
    forall name,
      is_Some (share s !! name) <->
      name ∈ r_names r_list /\ HasSuffix name "$" = false /\
      exists r, (Session_Mount (session s) name, r) ∈ evs /\ r_err r = None.
Proof.
  intros Hmiss HI. unfold Init in HI.
  pose proof (Get_miss_unchanged _ _ Hmiss) as Hc.
  destruct (Get params (cache w)) as [c0 cache'] eqn:HG. simpl in *. subst.
  rewrite !smb_call_eq in HI. simpl in HI.
  match type of HI with context [r_err ?r] => destruct (r_err r) eqn:He1 end;
    [done|].
  match type of HI with context [r_err ?r] =>
    lazymatch r with
    | (respond (smb2_Dial _ _ _) _).1 => destruct (r_err r) eqn:He2
    end end; [done|].
  simpl in HI. rewrite ?smb_call_eq in HI. simpl in HI.
  match type of HI with context [r_err ?r] =>
    lazymatch r with
    | (respond (Session_ListSharenames _) _).1 =>
        set (r_list := r) in *; destruct (r_err r_list) eqn:He3
    end end; [done|].
  match type of HI with context [mount_all respond ?a ?b ?c ?d] =>
    destruct (mount_all respond a b c d) as [sh w1] eqn:Hm end.
  inversion HI; subst; clear HI.
  apply mount_all_spec in Hm as (evm & Hlog & _ & Hcmd & Hdom). simpl in *.
  destruct (smb_cache_Set_log params (mkSamba (next w) sh) w1) as (eve & Hle & Hcl).
  exists r_list. eexists. split.
  { rewrite Hle, Hlog, <- !app_assoc. reflexivity. }
  split; [|split; [done|]].
  - intros r. simpl. rewrite !elem_of_cons, elem_of_app. split.
    + intros [Heq|[Heq|[Heq|[Hin|Hin]]]]; try (by inversion Heq).
      * apply Hcmd in Hin as (name & ? & _). done.
      * apply Hcl in Hin as [[h ?]|[x ?]]; done.
    + intros ->. auto.
  - intros name. rewrite Hdom. simpl. split.
    + intros [Hs|(r & Hin & Hok)]; [by apply is_Some_None in Hs; rewrite ?lookup_empty in *|].
      destruct (Hcmd _ _ Hin) as (name' & Heq & Hn & Hsuf).
      inversion Heq; subst name'. repeat split; [done..|].
      exists r. split; [|done]. rewrite !elem_of_cons, elem_of_app. auto.
    + intros (Hn & Hsuf & r & Hin & Hok). right. exists r. split; [|done].
      rewrite !elem_of_cons, elem_of_app in Hin.
      destruct Hin as [Heq|[Heq|[Heq|[Hin|Hin]]]]; try (by inversion Heq); [done|].
      apply Hcl in Hin as [[h ?]|[x ?]]; done.
Qed.

(** Listing the root: one directory entry per key of the share table, no
    error, and the world (remote side and log included) as it was. *)
Lemma Ls_root smb w :
  exists fs,
    Ls respond smb "/" w = (fs, None, w) /\
    NoDup (FName <$> fs) /\
    Forall (fun f => FType f = "directory") fs /\
    length fs = size (share smb) /\
    forall name, name ∈ FName <$> fs <-> is_Some (share smb !! name).
Proof.
  eexists. split; [reflexivity|].
  rewrite <- list_fmap_compose.
  change (FName ∘ _) with (@fst string nat).
  split; [apply NoDup_fst_map_to_list|].
  split; [by apply Forall_fmap, Forall_true|].
  split; [by rewrite length_fmap, length_map_to_list|].
  intros name. rewrite list_elem_of_fmap. split.
  - intros ([k h] & -> & Hin). apply elem_of_map_to_list in Hin. by eexists.
  - intros [h Hh]. exists (name, h). split; [done|].
    by apply elem_of_map_to_list.
Qed.

(** C10.  For the SMB adapter, listing ["/"] never fails, makes no call to
    the remote side, and returns exactly one entry of type directory per
    share of the share table.  The share table of an adapter built by
    [Init] holds only names that the enumeration at session establishment
    returned, none of them ending in [$], and each of them mounted with
    success (a name whose mounts all failed is absent). *)
Theorem Ls_root_lists_share_table :
  (forall smb w,
     exists fs,
       Ls respond smb "/" w = (fs, None, w) /\
       NoDup (FName <$> fs) /\
       Forall (fun f => FType f = "directory") fs /\
       length fs = size (share smb) /\
       forall name, name ∈ FName <$> fs <-> is_Some (share smb !! name)) /\
  (forall params w s w',
     (Get params (cache w)).1 = None ->
     Init respond params w = (Some s, None, w') ->
     exists r_list evs,
       log w' = log w ++ evs /\
       (forall r, (Session_ListSharenames (session s), r) ∈ evs <-> r = r_list) /\
       r_err r_list = None /\
       forall name,
         is_Some (share s !! name) <->
         name ∈ r_names r_list /\ HasSuffix name "$" = false /\
         exists r, (Session_Mount (session s) name, r) ∈ evs /\ r_err r = None).
Proof. split; [apply Ls_root | apply Init_share_table]. Qed.

(** Two names of the share table never share a handle: every successful
    mount allocates a new one. *)
Definition distinct_handles (sh : gmap string nat) : Prop :=
  forall n1 n2 h, sh !! n1 = Some h -> sh !! n2 = Some h -> n1 = n2.

Lemma mount_all_distinct sess names sh w sh' w' :
  mount_all respond sess names sh w = (sh', w') ->
  distinct_handles sh -> (forall n h, sh !! n = Some h -> (h < next w)%nat) ->
  distinct_handles sh' /\ (forall n h, sh' !! n = Some h -> (h < next w')%nat).
Proof.
  revert sh w. induction names as [|name0 rest IH]; intros sh w Hm Hd Hb;
    simpl in Hm.
  - by inversion Hm; subst.
  - destruct (HasSuffix name0 "$"); [by eapply IH|].
    rewrite smb_call_eq in Hm.
    destruct (r_err _); [by eapply IH|].
    eapply IH; [exact Hm| |]; simpl.
    + intros n1 n2 h H1 H2.
      apply lookup_insert_Some in H1 as [[<- <-]|[Hn1 H1]];
        apply lookup_insert_Some in H2 as [[<- Hh]|[Hn2 H2]]; try done.
      * apply Hb in H2. lia.
      * subst h. apply Hb in H1. lia.
      * eauto.
    + intros n h H. apply lookup_insert_Some in H as [[<- <-]|[_ H]]; [lia|].
      apply Hb in H. lia.
Qed.

Lemma Init_distinct_handles params w s w' :
  (Get params (cache w)).1 = None ->
  Init respond params w = (Some s, None, w') ->
  distinct_handles (share s).
Proof.
  intros Hmiss HI. unfold Init in HI.
  pose proof (Get_miss_unchanged _ _ Hmiss) as Hc.
  destruct (Get params (cache w)) as [c0 cache'] eqn:HG. simpl in *. subst.
  rewrite !smb_call_eq in HI. simpl in HI.
  repeat match type of HI with
         | context [match r_err ?r with _ => _ end] =>
             destruct (r_err r); [done|]; simpl in HI; rewrite ?smb_call_eq in HI;
             simpl in HI
         end.
  match type of HI with context [mount_all respond ?a ?b ?c ?d] =>
    destruct (mount_all respond a b c d) as [sh w1] eqn:Hm end.
  inversion HI; subst; clear HI. simpl.
  eapply mount_all_distinct in Hm as [Hd _]; [done| |].
  - intros n1 n2 h H. by rewrite lookup_empty in H.
  - intros n h H. by rewrite lookup_empty in H.
Qed.

(** *** Reading *)

Lemma toSambaPath_cases smb path :
  (exists sh p, toSambaPath smb path = (Some sh, p, None)) \/
  (exists e, toSambaPath smb path = (None, "", Some e)).
Proof.
  unfold toSambaPath. destruct (decide _); [right; eauto|].
  destruct (share smb !! _); [left|right]; eauto.
Qed.

(** [Cat] resolves the path and opens the file before it returns.  Without
    error it returns the open file after one successful [Open]; otherwise it
    returns no stream and the error is either that of the path resolution
    (no call was made) or the normalised error of the failed [Open]. *)
Lemma Cat_outcome smb path w :
  let '(st, err, w') := Cat respond smb path w in
  (err = None /\ st = Some (next w) /\
   exists sh p r, toSambaPath smb path = (Some sh, p, None) /\
                  log w' = log w ++ [(Share_Open sh p, r)] /\ r_err r = None) \/
  (err <> None /\ st = None /\
   ((toSambaPath smb path).2 = err /\ w' = w \/
    exists sh p r, toSambaPath smb path = (Some sh, p, None) /\
                   log w' = log w ++ [(Share_Open sh p, r)] /\
                   r_err r <> None /\ err = fromSambaErr (r_err r))).
Proof.
  unfold Cat.
  destruct (toSambaPath_cases smb path) as [(sh & p & ->)|(e & ->)].
  - rewrite smb_call_eq. cbn [fst snd].
    set (r := (respond (Share_Open sh p) (remote w)).1).
    destruct (r_err r) as [e|] eqn:He.
    + right. split; [|split; [done|]].
      * unfold fromSambaErr.
        destruct (os_IsPermission _); [done|]. by destruct (os_IsNotExist _).
      * right. exists sh, p, r. by rewrite He.
    + left. split; [done|]. split; [done|]. by exists sh, p, r.
  - right. split; [done|]. split; [done|]. by left.
Qed.

(** *** Touch and Save *)

Lemma fromSambaErr_idem e : fromSambaErr (fromSambaErr e) = fromSambaErr e.
Proof. by destruct e as [[| | | | | | |[]| | |]|]. Qed.

(** [Touch] makes the calls of [Save] with an empty source and returns its
    result passed through [fromSambaErr]: the two differ exactly when [Save]
    returns an error that [fromSambaErr] rewrites, which can only be the
    error of the final [Close], the one return of [Save] that is not
    normalised. *)
Lemma Touch_Save_empty smb path w :
  Touch respond smb path w =
  (fromSambaErr (Save respond smb path (NewReader "") w).1,
   (Save respond smb path (NewReader "") w).2).
Proof.
  unfold Touch, Save.
  destruct (toSambaPath smb path) as [[[sh|] p] [e|]] eqn:Hp; simpl;
    try (unfold toSambaPath in Hp;
         destruct (decide _); [|destruct (share smb !! _)];
         by inversion Hp).
  rewrite !smb_call_eq. simpl.
  destruct (r_err _) eqn:He; simpl.
  - by rewrite fromSambaErr_idem.
  - done.
Qed.

End Calls.

(** [Mv] between two shares of the example adapter. *)
Lemma Mv_across_shares_witness :
  toSambaPath two_shares "shareA/x" = (Some 1%nat, "x", None) /\
  toSambaPath two_shares "shareB/y" = (Some 2%nat, "y", None) /\
  Mv friendly two_shares "shareA/x" "shareB/y" smb_world0
  = (Some ErrNotImplemented, smb_world0).
Proof.
  split; [vm_compute; reflexivity|]. split; [vm_compute; reflexivity|].
  apply (Mv_across_shares friendly two_shares "shareA/x" "shareB/y" smb_world0
           1%nat "x" 2%nat "y"); [vm_compute; reflexivity..|lia].
Defined.

Lemma Ls_root_lists_share_table_witness :
  (Get ∅ (cache smb_world0)).1 = None /\
  Init friendly ∅ smb_world0
  = (Some two_shares, None, (Init friendly ∅ smb_world0).2) /\
  exists r_list evs,
    log (Init friendly ∅ smb_world0).2 = log smb_world0 ++ evs /\
    (forall r, (Session_ListSharenames (session two_shares), r) ∈ evs
               <-> r = r_list) /\
    r_err r_list = None /\
    forall name,
      is_Some (share two_shares !! name) <->
      name ∈ r_names r_list /\ HasSuffix name "$" = false /\
      exists r, (Session_Mount (session two_shares) name, r) ∈ evs /\
                r_err r = None.
Proof.
  split; [reflexivity|]. split; [vm_compute; reflexivity|].
  apply (proj2 (Ls_root_lists_share_table friendly) ∅ smb_world0);
    vm_compute; reflexivity.
Defined.

(** C9 (code defect, SMB adapter).  The claim: touch and write of an empty
    source return equivalent results.  The code: both make the same calls
    ([Create], then [Close]), but [Touch] normalises the error of [Close]
    with [fromSambaErr] and [Save] returns it as it is.  When the close is
    refused for lack of permission, [Touch] reports permission-denied and
    [Save] the raw error. *)
Theorem Touch_Save_close_error :
  Touch close_denied two_shares "shareA/f" smb_world0
  = (Some ErrPermissionDenied,
     (Save close_denied two_shares "shareA/f" (NewReader "") smb_world0).2) /\
  (Save close_denied two_shares "shareA/f" (NewReader "") smb_world0).1
  = Some (OsError OsPermission "access denied").
Proof. split; vm_compute; reflexivity. Qed.

(** C8 (counterexample).  The claim, as stated for every path and both
    adapters: the read returns a stream, and a failure is never the error
    return of the call.  For the SMB adapter the call itself returns the
    error and no stream, both when the path names no mounted share and when
    opening the remote file fails. *)
Lemma Cat_returns_error :
  (Cat friendly two_shares "shareC/f" smb_world0).1 = (None, Some ErrNotFound) /\
  (Cat open_fails two_shares "shareA/f" smb_world0).1
  = (None, Some (TransportError "connection reset")).
Proof. split; vm_compute; reflexivity. Qed.

End SambaFacts.

(** ** The FTP adapter *)

Module FtpFacts.
Import Common GoStrings Ftp FtpServer CacheFacts Examples.

(** *** Initialisation *)

Lemma fill_defaults_empty :
  fill_defaults ∅ =
  <["password" := "anonymous"]>
    (<["username" := "anonymous"]>
       (<["port" := "21"]> (<["hostname" := "localhost"]> ∅))).
Proof. vm_compute. reflexivity. Qed.

Lemma param_insert (params : gmap string string) j d i :
  param (<[j := d]> params) i = if decide (j = i) then d else param params i.
Proof.
  unfold param. rewrite lookup_insert. by destruct (decide (j = i)).
Qed.

Lemma fill_defaults_steps (params : gmap string string) :
  fill_defaults params =
  let p := default_to "username" "anonymous"
             (default_to "port" "21"
                (default_to "hostname" "localhost" params)) in
  if decide (param p "username" = "anonymous" /\ param p "password" = "")
  then <["password" := "anonymous"]> p else p.
Proof. reflexivity. Qed.

Lemma default_to_keeps k0 d (params : gmap string string) k v :
  params !! k = Some v -> v <> "" -> default_to k0 d params !! k = Some v.
Proof.
  intros Hk Hv. unfold default_to. destruct (decide _) as [He|]; [|done].
  destruct (decide (k0 = k)) as [->|Hne]; [|by rewrite lookup_insert_ne].
  unfold param in He. rewrite Hk in He. simpl in He. congruence.
Qed.

Lemma default_to_other k0 d (params : gmap string string) k :
  k <> k0 -> default_to k0 d params !! k = params !! k.
Proof.
  intros Hne. unfold default_to. destruct (decide _); [|done].
  by rewrite lookup_insert_ne.
Qed.

Lemma default_to_set k0 d (params : gmap string string) :
  d <> "" -> param (default_to k0 d params) k0 <> "".
Proof.
  intros Hd. unfold default_to. destruct (decide _); [|done].
  rewrite param_insert. by rewrite decide_True.
Qed.

Lemma default_to_param_other k0 d (params : gmap string string) k :
  k <> k0 -> param (default_to k0 d params) k = param params k.
Proof. intros Hne. unfold param. by rewrite default_to_other. Qed.

Lemma default_to_id k0 d (params : gmap string string) :
  param params k0 <> "" -> default_to k0 d params = params.
Proof. intros Hn. unfold default_to. by rewrite decide_False. Qed.

(** A parameter given with a non-empty value keeps it. *)
Lemma fill_defaults_keeps (params : gmap string string) k v :
  params !! k = Some v -> v <> "" -> fill_defaults params !! k = Some v.
Proof.
  intros Hk Hv. rewrite fill_defaults_steps. cbv zeta.
  set (p := default_to "username" _ _).
  assert (Hp : p !! k = Some v)
    by (do 3 (apply default_to_keeps; [|done]); done).
  destruct (decide _) as [[_ He]|]; [|done].
  destruct (decide ("password" = k)) as [<-|Hne]; [|by rewrite lookup_insert_ne].
  unfold param in He. rewrite Hp in He. simpl in He. congruence.
Qed.

(** Only the four keys with a default are ever written. *)
Lemma fill_defaults_other (params : gmap string string) k :
  k <> "hostname" -> k <> "port" -> k <> "username" -> k <> "password" ->
  fill_defaults params !! k = params !! k.
Proof.
  intros ????. rewrite fill_defaults_steps. cbv zeta.
  destruct (decide _); rewrite ?lookup_insert_ne by done;
    by rewrite !default_to_other.
Qed.

(** Filling in the defaults a second time changes nothing. *)
Lemma fill_defaults_idem (params : gmap string string) :
  fill_defaults (fill_defaults params) = fill_defaults params.
Proof.
  set (q := fill_defaults params).
  assert (Hh : param q "hostname" <> "" /\ param q "port" <> "" /\
               param q "username" <> "" /\
               ~ (param q "username" = "anonymous" /\ param q "password" = "")).
  { unfold q. rewrite fill_defaults_steps. cbv zeta.
    set (p := default_to "username" _ _).
    assert (Hu : param p "username" <> "")
      by (by apply default_to_set).
    assert (Hpo : param p "port" <> "").
    { unfold p. rewrite default_to_param_other by done.
      by apply default_to_set. }
    assert (Hho : param p "hostname" <> "").
    { unfold p. rewrite !default_to_param_other by done.
      by apply default_to_set. }
    destruct (decide _) as [Hc|Hc].
    - rewrite !param_insert.
      rewrite (decide_False (P := "password" = "hostname")) by done.
      rewrite (decide_False (P := "password" = "port")) by done.
      rewrite (decide_False (P := "password" = "username")) by done.
      rewrite (decide_True (P := "password" = "password")) by done.
      repeat split; try done. by intros [_ ?].
    - done. }
  destruct Hh as (Hho & Hpo & Hu & Hc).
  rewrite (fill_defaults_steps q). cbv zeta.
  rewrite (default_to_id "hostname") by done.
  rewrite (default_to_id "port") by done.
  rewrite (default_to_id "username") by done.
  by rewrite decide_False.
Qed.

Lemma conn_of_positive (params : gmap string string) i :
  Atoi (param params "conn") = Some i -> 0 < i -> conn_of params = i.
Proof.
  intros Ha Hi. unfold conn_of. rewrite Ha.
  destruct (decide _) as [_|Hn].
  - destruct (0 <? i) eqn:E; [done|]. apply Z.ltb_ge in E. lia.
  - exfalso. apply Hn. intros He. rewrite He in Ha. vm_compute in Ha. done.
Qed.

Lemma conn_of_fill_defaults (params : gmap string string) :
  conn_of (fill_defaults params) = conn_of params.
Proof.
  unfold conn_of, param. by rewrite fill_defaults_other.
Qed.

Section Calls.
Context {S : Type} (respond : Cmd -> S -> Reply * S).
Implicit Types (w : World Ftp Event S) (f : Ftp).

Lemma call_eq c w :
  call respond c w =
  ((respond c (remote w)).1,
   mkWorld (cache w) (next w) (respond c (remote w)).2
           (log w ++ [(c, (respond c (remote w)).1)])).
Proof. unfold call. by destruct (respond c (remote w)). Qed.

(** [Init] on a cache miss, step by step. *)
Lemma Init_miss params w :
  (Get params (cache w)).1 = None ->
  let p := fill_defaults params in
  let dial := DialConfig (configWithoutTLS p) (dial_addr p) in
  let d := respond dial (remote w) in
  let probe := respond (Client_ReadDir (next w) "/") d.2 in
  let close := respond (Client_Close (next w)) probe.2 in
  Init respond params w =
  match r_err d.1 with
  | Some err =>
      (None, Some err, p,
       mkWorld (cache w) (next w) d.2 (log w ++ [(dial, d.1)]))
  | None =>
      match r_err probe.1 with
      | Some _ =>
          (None, Some ErrAuthenticationFailed, p,
           mkWorld (cache w) (Datatypes.S (next w)) close.2
                   (log w ++ [(dial, d.1);
                              (Client_ReadDir (next w) "/", probe.1);
                              (Client_Close (next w), close.1)]))
      | None =>
          (Some (mkFtp (next w)), None, p,
           cache_Set respond p (mkFtp (next w))
             (mkWorld (cache w) (Datatypes.S (next w)) probe.2
                      (log w ++ [(dial, d.1);
                                 (Client_ReadDir (next w) "/", probe.1)])))
      end
  end.
Proof.
  intros Hmiss. unfold Init.
  pose proof (Get_miss_unchanged _ _ Hmiss) as Hc.
  destruct (Get params (cache w)) as [c0 cache'] eqn:HG. simpl in *. subst.
  rewrite !call_eq. simpl.
  destruct (r_err _); [done|]. simpl. rewrite ?call_eq. simpl.
  destruct (r_err _); simpl; rewrite ?call_eq; simpl;
    by rewrite <- ?app_assoc.
Qed.

(** [Init] on a cache hit: the cached adapter, no error, the map untouched,
    no call to the remote side. *)
Lemma Init_hit params w d :
  (Get params (cache w)).1 = Some d ->
  Init respond params w =
  (Some d, None, params,
   mkWorld (Get params (cache w)).2 (next w) (remote w) (log w)).
Proof.
  intros Hhit. unfold Init.
  destruct (Get params (cache w)) as [c0 cache'] eqn:HG. simpl in *. by subst.
Qed.

Lemma evict_all_log (l : list (gmap string string * Ftp)) w :
  exists evs,
    log (foldl (fun w e => onEvict respond e.2 w) w l) = log w ++ evs /\
    forall c r, (c, r) ∈ evs -> exists client, c = Client_Close client.
Proof.
  revert w. induction l as [|e l IH]; intros w; simpl.
  - exists []. rewrite app_nil_r. split; [done|].
    intros c r Hin. by apply elem_of_nil in Hin.
  - destruct (IH (onEvict respond e.2 w)) as (evs & -> & Hc).
    unfold onEvict, Close. rewrite call_eq. simpl.
    eexists (_ :: evs). rewrite <- app_assoc. split; [done|].
    intros c r Hin. apply elem_of_cons in Hin as [Heq|Hin]; [|by eauto].
    inversion Heq; subst. eauto.
Qed.

Lemma cache_Set_log params backend w :
  exists evs,
    log (cache_Set respond params backend w) = log w ++ evs /\
    forall c r, (c, r) ∈ evs -> exists client, c = Client_Close client.
Proof.
  unfold cache_Set. destruct (Set_ params backend (cache w)) as [c evicted].
  apply (evict_all_log evicted (mkWorld c (next w) (remote w) (log w))).
Qed.

Lemma evict_all_cache (l : list (gmap string string * Ftp)) w :
  cache (foldl (fun w e => onEvict respond e.2 w) w l) = cache w.
Proof.
  revert w. induction l as [|e l IH]; intros w; simpl; [done|].
  rewrite IH. unfold onEvict, Close. by rewrite call_eq.
Qed.

Lemma cache_Set_cache params backend w :
  cache (cache_Set respond params backend w)
  = (Set_ params backend (cache w)).1.
Proof.
  unfold cache_Set. destruct (Set_ params backend (cache w)) as [c evicted].
  by rewrite evict_all_cache.
Qed.

(** C5.  When dialling succeeds and the probe (listing ["/"]) fails, [Init]
    closes the client it has just obtained and returns the
    authentication-failed error, whatever the error of the probe was.
    Whenever [Init] returns an error, it returns no adapter and the cache
    is as it was before the call. *)
Theorem Init_probe_failure params w :
  (forall err, (Init respond params w).1.1.2 = Some err ->
     (Init respond params w).1.1.1 = None /\
     cache (Init respond params w).2 = cache w) /\
  ((Get params (cache w)).1 = None ->
   let p := fill_defaults params in
   let dial := DialConfig (configWithoutTLS p) (dial_addr p) in
   let d := respond dial (remote w) in
   let probe := respond (Client_ReadDir (next w) "/") d.2 in
   let close := respond (Client_Close (next w)) probe.2 in
   r_err d.1 = None -> r_err probe.1 <> None ->
   (Init respond params w).1.1 = (None, Some ErrAuthenticationFailed) /\
   log (Init respond params w).2 =
     log w ++ [(dial, d.1); (Client_ReadDir (next w) "/", probe.1);
               (Client_Close (next w), close.1)]).
Proof.
  split.
  - intros err Herr.
    destruct (Get params (cache w)).1 as [d|] eqn:HG.
    + rewrite (Init_hit _ _ _ HG) in Herr. done.
    + rewrite (Init_miss _ _ HG) in *. simpl in *.
      destruct (r_err _); [done|]. destruct (r_err _); done.
  - intros HG p dial d probe close Hd Hp.
    rewrite (Init_miss _ _ HG). fold p dial d probe close.
    rewrite Hd. destruct (r_err probe.1); done.
Qed.

(** What the first call leaves in the cache is found by a second call with
    the map as the first call left it (the defaults filled in). *)
Lemma Init_again_with_filled_map params w b p' w' :
  (0 < capacity (cache w))%nat ->
  Init respond params w = (Some b, None, p', w') ->
  Init respond p' w' =
  (Some b, None, p',
   mkWorld (Get p' (cache w')).2 (next w') (remote w') (log w')).
Proof.
  intros Hcap HI. apply Init_hit.
  destruct (Get params (cache w)).1 as [d|] eqn:HG.
  - rewrite (Init_hit _ _ _ HG) in HI. inversion HI; subst; clear HI. simpl.
    unfold Get in *. destruct (assoc p' (entries (cache w))); [|done].
    simpl in *. rewrite decide_True by done. simpl. congruence.
  - rewrite (Init_miss _ _ HG) in HI. simpl in HI.
    destruct (r_err _); [done|]. destruct (r_err _); [done|].
    inversion HI; subst; clear HI.
    rewrite cache_Set_cache. simpl. by apply Get_Set.
Qed.

End Calls.

(** C1 (code defect, FTP adapter).  The claim: a second [Init] with a
    parameter map equal in content to that of the first returns the cached
    adapter without a new connection.  The code: [Init] looks the map up
    before it fills in the defaults and stores the adapter under the map
    after it has filled them in.  Two calls with an empty map: the first
    stores its adapter under the four defaults, the second looks up the
    empty map, misses, dials again and returns a second adapter. *)
Theorem Init_twice_empty_params :
  let r1 := Init plain ∅ ftp_world0 in
  let r2 := Init plain ∅ r1.2 in
  r1.1.1 = (Some (mkFtp 0), None) /\
  r2.1.1 = (Some (mkFtp 1), None) /\
  length (filter is_dial (log r1.2)) = 1%nat /\
  length (filter is_dial (log r2.2)) = 2%nat.
Proof. vm_compute. repeat split; reflexivity. Qed.

(** A parameter that is missing or given as the empty text gets its
    default; the password only when the user is ["anonymous"]. *)
Lemma fill_defaults_empty_text (params : gmap string string) :
  (param params "hostname" = "" ->
   fill_defaults params !! "hostname" = Some "localhost") /\
  (param params "port" = "" -> fill_defaults params !! "port" = Some "21") /\
  (param params "username" = "" ->
   fill_defaults params !! "username" = Some "anonymous") /\
  (param (fill_defaults params) "username" = "anonymous" ->
   param params "password" = "" ->
   fill_defaults params !! "password" = Some "anonymous").
Proof.
  rewrite fill_defaults_steps. cbv zeta.
  set (p := default_to "username" _ _).
  assert (Hpw : forall k, k <> "password" ->
            (if decide (param p "username" = "anonymous" /\ param p "password" = "")
             then <["password" := "anonymous"]> p else p) !! k = p !! k).
  { intros k Hk. destruct (decide _); [|done]. by rewrite lookup_insert_ne. }
  split; [|split; [|split]].
  - intros H. rewrite Hpw by done. unfold p.
    rewrite !default_to_other by done.
    unfold default_to. rewrite decide_True by done. apply lookup_insert_eq.
  - intros H. rewrite Hpw by done. unfold p.
    rewrite default_to_other by done.
    unfold default_to at 1. rewrite decide_True.
    + apply lookup_insert_eq.
    + by rewrite default_to_param_other.
  - intros H. rewrite Hpw by done. unfold p.
    unfold default_to at 1. rewrite decide_True.
    + apply lookup_insert_eq.
    + by rewrite !default_to_param_other.
  - intros Hu Hpass.
    assert (Hpp : param p "password" = "").
    { unfold p. by rewrite !default_to_param_other. }
    assert (Hpu : param p "username" = "anonymous").
    { unfold param in *. rewrite Hpw in Hu; done. }
    rewrite decide_True by done. apply lookup_insert_eq.
Qed.

(** C6 (amended).  With an empty parameter map, [Init] fills in
    ["localhost"], ["21"], ["anonymous"] and ["anonymous"] for host, port,
    user and password, and dials with five connections per host.  A
    parameter that is present with a value other than the empty text keeps
    its value, and a ["conn"] that reads as a positive integer is the
    number of connections.  A host, port or user that is missing or given
    as the empty text gets its default, and so does the password when the
    user is ["anonymous"]. *)
Theorem Init_fills_defaults :
  (forall S (respond : Cmd -> S -> Reply * S) (w : World Ftp Event S),
     (Get ∅ (cache w)).1 = None ->
     (Init respond ∅ w).1.2 =
       <["password" := "anonymous"]>
         (<["username" := "anonymous"]>
            (<["port" := "21"]> (<["hostname" := "localhost"]> ∅))) /\
     exists r evs,
       log (Init respond ∅ w).2 =
       log w ++ (DialConfig (mkConfig "anonymous" "anonymous" 5 10)
                            "localhost:21", r) :: evs) /\
  (forall (params : gmap string string) k v,
     params !! k = Some v -> v <> "" -> fill_defaults params !! k = Some v) /\
  (forall (params : gmap string string) i,
     Atoi (param params "conn") = Some i -> 0 < i ->
     fill_defaults params !! "conn" = params !! "conn" /\
     ConnectionsPerHost (configWithoutTLS (fill_defaults params)) = i) /\
  (forall (params : gmap string string),
     (param params "hostname" = "" ->
      fill_defaults params !! "hostname" = Some "localhost") /\
     (param params "port" = "" -> fill_defaults params !! "port" = Some "21") /\
     (param params "username" = "" ->
      fill_defaults params !! "username" = Some "anonymous") /\
     (param (fill_defaults params) "username" = "anonymous" ->
      param params "password" = "" ->
      fill_defaults params !! "password" = Some "anonymous")).
Proof.
  split; [|split; [|split]].
  - intros S respond w HG. rewrite (Init_miss _ _ _ HG).
    rewrite fill_defaults_empty.
    change (configWithoutTLS _) with (mkConfig "anonymous" "anonymous" 5 10).
    change (dial_addr _) with "localhost:21".
    destruct (r_err _); simpl; [by eauto|].
    destruct (r_err _); simpl; [by eauto|].
    split; [done|].
    match goal with |- context [cache_Set respond ?p ?b ?w0] =>
      destruct (cache_Set_log respond p b w0) as (evs & -> & _) end.
    simpl. rewrite <- app_assoc. simpl. eauto.
  - apply fill_defaults_keeps.
  - intros params i Ha Hi. split.
    + by apply fill_defaults_other.
    + simpl. rewrite conn_of_fill_defaults. by apply conn_of_positive.
  - apply fill_defaults_empty_text.
Qed.

(** C6 (counterexample).  The claim, as stated: a parameter already
    present is left unchanged.  A map that holds the host as the empty text
    holds that key, and [Init] replaces its value by ["localhost"] and
    dials there, while the port given beside it is kept: the code tests
    [params[k] == ""], which does not tell a missing key from an empty
    value. *)
Lemma Init_replaces_empty_text :
  ({["hostname" := ""; "port" := "2121"]} : gmap string string) !! "hostname"
    = Some "" /\
  (Init plain {["hostname" := ""; "port" := "2121"]} ftp_world0).1.2
    !! "hostname" = Some "localhost" /\
  (Init plain {["hostname" := ""; "port" := "2121"]} ftp_world0).1.2
    !! "port" = Some "2121" /\
  (exists r evs,
     log (Init plain {["hostname" := ""; "port" := "2121"]} ftp_world0).2 =
     (DialConfig (mkConfig "anonymous" "anonymous" 5 10) "localhost:2121", r)
       :: evs) /\
  ~ (forall (params : gmap string string) k v,
       params !! k = Some v -> fill_defaults params !! k = Some v).
Proof.
  split; [vm_compute; reflexivity|].
  split; [vm_compute; reflexivity|].
  split; [vm_compute; reflexivity|].
  split; [vm_compute; by eauto|].
  intros H. specialize (H {["hostname" := ""]} "hostname" "").
  vm_compute in H. by specialize (H eq_refl).
Qed.

(** *** The server tree *)

Section Forest.
Implicit Types (f cs r old new : forest) (b p q n : string).

Lemma paths_cons_file b n r :
  (nodes b (ConsFile n r)).*1 = (b +:+ n) :: (nodes b r).*1.
Proof. done. Qed.

Lemma paths_cons_dir b n cs r :
  (nodes b (ConsDir n cs r)).*1 =
  (b +:+ n +:+ "/") :: (nodes (b +:+ n +:+ "/") cs).*1 ++ (nodes b r).*1.
Proof. simpl. by rewrite fmap_app. Qed.

Lemma NoDup_cons_file b n r :
  NoDup (nodes b (ConsFile n r)).*1 ->
((b +:+ n) ∉ (nodes b r).*1) /\ NoDup (nodes b r).*1.
Proof. rewrite paths_cons_file. by intros ?%NoDup_cons. Qed.

Lemma NoDup_cons_dir b n cs r :
  NoDup (nodes b (ConsDir n cs r)).*1 ->
  ((b +:+ n +:+ "/") ∉ (nodes (b +:+ n +:+ "/") cs).*1) /\
  ((b +:+ n +:+ "/") ∉ (nodes b r).*1) /\
  NoDup (nodes (b +:+ n +:+ "/") cs).*1 /\
  NoDup (nodes b r).*1 /\
  (forall x, x ∈ (nodes (b +:+ n +:+ "/") cs).*1 -> x ∉ (nodes b r).*1).
Proof.
  rewrite paths_cons_dir. intros [Hh Ht]%NoDup_cons.
  apply not_elem_of_app in Hh as [? ?].
  apply NoDup_app in Ht as (? & ? & ?). done.
Qed.

(** A directory that is found is an entry of the tree, and so is
    everything below it. *)
Lemma lookup_dir_nodes b f p cs :
  lookup_dir b f p = Some cs ->
  (p, true) ∈ nodes b f /\ forall x, x ∈ nodes p cs -> x ∈ nodes b f.
Proof.
  revert b. induction f as [|n r IHr|n cs0 IHcs r IHr]; intros b H; simpl in *.
  - done.
  - apply IHr in H as [? ?]. split; [by apply elem_of_cons; right|].
    intros x Hx. apply elem_of_cons. right. auto.
  - destruct (decide _) as [<-|Hne].
    + inversion H; subst. split; [by apply elem_of_cons; left|].
      intros x Hx. apply elem_of_cons. right. apply elem_of_app. by left.
    + destruct (lookup_dir _ cs0 p) as [x0|] eqn:Hcs.
      * inversion H; subst. apply IHcs in Hcs as [? ?].
        split; [apply elem_of_cons; right; apply elem_of_app; by left|].
        intros x Hx. apply elem_of_cons. right. apply elem_of_app. left. auto.
      * apply IHr in H as [? ?].
        split; [apply elem_of_cons; right; apply elem_of_app; by right|].
        intros x Hx. apply elem_of_cons. right. apply elem_of_app. right. auto.
Qed.

Lemma lookup_dir_path b f p cs :
  lookup_dir b f p = Some cs -> p ∈ (nodes b f).*1.
Proof.
  intros [H _]%lookup_dir_nodes. apply list_elem_of_fmap. by exists (p, true).
Qed.

Lemma lookup_dir_below b f p cs q :
  lookup_dir b f p = Some cs -> q ∈ (nodes p cs).*1 -> q ∈ (nodes b f).*1.
Proof.
  intros [_ H]%lookup_dir_nodes (x & -> & Hx)%list_elem_of_fmap.
  apply list_elem_of_fmap. exists x. auto.
Qed.

Lemma lookup_dir_notin b f p :
  p ∉ (nodes b f).*1 -> lookup_dir b f p = None.
Proof.
  intros Hn. destruct (lookup_dir b f p) eqn:E; [|done].
  exfalso. by apply Hn, (lookup_dir_path _ _ _ _ E).
Qed.

Lemma set_children_none b f p new :
  lookup_dir b f p = None -> set_children b f p new = f.
Proof.
  revert b. induction f as [|n r IHr|n cs0 IHcs r IHr]; intros b H; simpl in *.
  - done.
  - by rewrite IHr.
  - destruct (decide _); [done|].
    destruct (lookup_dir _ cs0 p) eqn:Hcs; [done|].
    by rewrite IHcs, IHr.
Qed.

Lemma remove_notin b f p : p ∉ (nodes b f).*1 -> remove b f p = f.
Proof.
  revert b. induction f as [|n r IHr|n cs0 IHcs r IHr]; intros b H.
  - done.
  - rewrite paths_cons_file in H. apply not_elem_of_cons in H as [? ?].
    simpl. rewrite decide_False by done. by rewrite IHr.
  - rewrite paths_cons_dir in H. apply not_elem_of_cons in H as [? H].
    apply not_elem_of_app in H as [? ?].
    simpl. rewrite decide_False by done. by rewrite IHcs, IHr.
Qed.

Lemma lookup_set_children b f p old new :
  lookup_dir b f p = Some old ->
  lookup_dir b (set_children b f p new) p = Some new.
Proof.
  revert b. induction f as [|n r IHr|n cs0 IHcs r IHr]; intros b H; simpl in *.
  - done.
  - auto.
  - destruct (decide _) as [Heq|Hne]; simpl.
    + by rewrite decide_True.
    + rewrite decide_False by done.
      destruct (lookup_dir _ cs0 p) eqn:Hcs.
      * inversion H; subst. by rewrite (IHcs _ Hcs).
      * rewrite (set_children_none _ _ _ _ Hcs), Hcs. auto.
Qed.

Lemma set_children_twice b f p x y :
  set_children b (set_children b f p x) p y = set_children b f p y.
Proof.
  revert b. induction f as [|n r IHr|n cs0 IHcs r IHr]; intros b; simpl.
  - done.
  - by rewrite IHr.
  - destruct (decide _) as [Heq|Hne]; simpl.
    + rewrite decide_True by done. by rewrite IHr.
    + rewrite decide_False by done. by rewrite IHcs, IHr.
Qed.

(** Removing a directory does not depend on what it contains. *)
Lemma remove_set_children b f q new :
  remove b (set_children b f q new) q = remove b f q.
Proof.
  revert b. induction f as [|n r IHr|n cs0 IHcs r IHr]; intros b; simpl.
  - done.
  - destruct (decide _); by rewrite IHr.
  - destruct (decide _) as [Heq|Hne]; simpl.
    + rewrite decide_True by done. by rewrite IHr.
    + rewrite decide_False by done. by rewrite IHcs, IHr.
Qed.

Lemma remove_sublist b f q : nodes b (remove b f q) `sublist_of` nodes b f.
Proof.
  revert b. induction f as [|n r IHr|n cs0 IHcs r IHr]; intros b; simpl.
  - done.
  - destruct (decide _); simpl.
    + by apply sublist_cons.
    + by apply sublist_skip.
  - destruct (decide _); simpl.
    + apply sublist_cons. by apply sublist_inserts_l.
    + apply sublist_skip. by apply sublist_app.
Qed.

Lemma notin_neq (x y : string) (l : list string) : x ∉ l -> y ∈ l -> x <> y.
Proof. by intros ? ? ->. Qed.

Lemma head_path_in p old q : head_path p old = Some q -> q ∈ (nodes p old).*1.
Proof.
  destruct old; simpl; intros H; inversion H; subst;
    rewrite ?fmap_app; apply elem_of_cons; by left.
Qed.

Lemma head_path_notin_tail p old q :
  NoDup (nodes p old).*1 -> head_path p old = Some q ->
  q ∉ (nodes p (tail_of old)).*1.
Proof.
  destruct old; simpl; intros Hnd H; inversion H; subst.
  - by apply NoDup_cons_file in Hnd as [? ?].
  - by apply NoDup_cons_dir in Hnd as (? & ? & ?).
Qed.

Lemma remove_head p old q :
  NoDup (nodes p old).*1 -> head_path p old = Some q ->
  remove p old q = tail_of old.
Proof.
  intros Hnd H. pose proof (head_path_notin_tail _ _ _ Hnd H) as Hn.
  destruct old; simpl in *; inversion H; subst;
    rewrite decide_True by done; by apply remove_notin.
Qed.

(** In a tree without duplicate paths, removing the first entry of the
    directory [p] leaves this directory with the rest of its content. *)
Lemma remove_child b f p old q :
  NoDup (nodes b f).*1 -> lookup_dir b f p = Some old ->
  head_path p old = Some q ->
  remove b f q = set_children b f p (tail_of old).
Proof.
  revert b. induction f as [|n r IHr|n cs0 IHcs r IHr]; intros b Hnd H Hq.
  - done.
  - apply NoDup_cons_file in Hnd as [Hh Hr]. simpl in *.
    assert (q ∈ (nodes b r).*1)
      by (eapply lookup_dir_below; [done|by apply head_path_in]).
    rewrite decide_False by (intros <-; done).
    by rewrite (IHr _ Hr H Hq).
  - pose proof Hnd as Hnd'.
    apply NoDup_cons_dir in Hnd as (Hh1 & Hh2 & Hcs & Hr & Hdis). simpl in *.
    destruct (decide _) as [Heq|Hne].
    + inversion H; subst old. subst p.
      assert (Hqc : q ∈ (nodes (b +:+ n +:+ "/") cs0).*1)
        by by apply head_path_in.
      rewrite decide_False by (intros <-; done).
      rewrite (remove_head _ _ _ Hcs Hq).
      rewrite (remove_notin _ r q) by auto.
      by rewrite (set_children_none _ r) by by apply lookup_dir_notin.
    + destruct (lookup_dir _ cs0 p) as [x0|] eqn:Hl.
      * inversion H; subst x0.
        assert (Hqc : q ∈ (nodes (b +:+ n +:+ "/") cs0).*1)
          by (eapply lookup_dir_below; [done|by apply head_path_in]).
        assert (Hpc : p ∈ (nodes (b +:+ n +:+ "/") cs0).*1)
          by by eapply lookup_dir_path.
        rewrite decide_False by (intros <-; done).
        rewrite (IHcs _ Hcs Hl Hq).
        rewrite (remove_notin _ r q) by auto.
        by rewrite (set_children_none _ r) by (apply lookup_dir_notin; auto).
      * assert (Hqr : q ∈ (nodes b r).*1)
          by (eapply lookup_dir_below; [done|by apply head_path_in]).
        rewrite decide_False by (intros <-; done).
        rewrite (IHr _ Hr H Hq).
        rewrite (remove_notin _ cs0 q) by (intros Hin; by apply (Hdis q)).
        by rewrite (set_children_none _ cs0).
Qed.

(** The content of a sub-directory that is the first entry of [p]. *)
Lemma lookup_child_dir b f p n cs r :
  NoDup (nodes b f).*1 -> lookup_dir b f p = Some (ConsDir n cs r) ->
  lookup_dir b f (p +:+ n +:+ "/") = Some cs.
Proof.
  revert b. induction f as [|m r0 IHr|m cs0 IHcs r0 IHr]; intros b Hnd H.
  - done.
  - apply NoDup_cons_file in Hnd as [Hh Hr]. simpl in *. auto.
  - apply NoDup_cons_dir in Hnd as (Hh1 & Hh2 & Hcs & Hr & Hdis). simpl in *.
    set (q := p +:+ n +:+ "/").
    assert (Hqh : head_path p (ConsDir n cs r) = Some q) by done.
    destruct (decide (_ = p)) as [Heq|Hne].
    + inversion H; subst cs0. subst p.
      assert (Hqc : q ∈ (nodes (b +:+ m +:+ "/") (ConsDir n cs r)).*1)
        by by apply head_path_in.
      rewrite decide_False by exact (notin_neq _ _ _ Hh1 Hqc).
      simpl. by rewrite decide_True.
    + destruct (lookup_dir _ cs0 p) as [x0|] eqn:Hl.
      * inversion H; subst x0.
        assert (Hqc : q ∈ (nodes (b +:+ m +:+ "/") cs0).*1)
          by (eapply lookup_dir_below; [done|by apply head_path_in]).
        rewrite decide_False by exact (notin_neq _ _ _ Hh1 Hqc).
        unfold q. by rewrite (IHcs _ Hcs Hl).
      * assert (Hqr : q ∈ (nodes b r0).*1)
          by (eapply lookup_dir_below; [done|by apply head_path_in]).
        rewrite decide_False by exact (notin_neq _ _ _ Hh2 Hqr).
        rewrite (lookup_dir_notin _ cs0 q)
          by (intros Hin; by apply (Hdis q)).
        auto.
Qed.

(** Removing a directory takes away the directory and what is below it,
    and nothing else. *)
Lemma nodes_remove_dir b f p cs :
  NoDup (nodes b f).*1 -> lookup_dir b f p = Some cs ->
  nodes b f ≡ₚ (p, true) :: nodes p cs ++ nodes b (remove b f p).
Proof.
  revert b. induction f as [|m r0 IHr|m cs0 IHcs r0 IHr]; intros b Hnd H.
  - done.
  - apply NoDup_cons_file in Hnd as [Hh Hr]. simpl in *.
    assert (p ∈ (nodes b r0).*1) by by eapply lookup_dir_path.
    rewrite decide_False by (intros <-; done). simpl.
    rewrite (IHr _ Hr H) at 1. by solve_Permutation.
  - apply NoDup_cons_dir in Hnd as (Hh1 & Hh2 & Hcs & Hr & Hdis). simpl in *.
    destruct (decide (_ = p)) as [Heq|Hne].
    + inversion H; subst cs0. subst p.
      by rewrite (remove_notin _ r0) by done.
    + simpl. destruct (lookup_dir _ cs0 p) as [x0|] eqn:Hl.
      * inversion H; subst x0.
        assert (Hpc : p ∈ (nodes (b +:+ m +:+ "/") cs0).*1)
          by by eapply lookup_dir_path.
        rewrite (remove_notin _ r0 p) by auto.
        rewrite (IHcs _ Hcs Hl) at 1. by solve_Permutation.
      * assert (Hpr : p ∈ (nodes b r0).*1) by by eapply lookup_dir_path.
        rewrite (remove_notin _ cs0 p) by (intros Hin; by apply (Hdis p)).
        rewrite (IHr _ Hr H) at 1. by solve_Permutation.
Qed.

Lemma set_children_same b f p old :
  NoDup (nodes b f).*1 -> lookup_dir b f p = Some old ->
  set_children b f p old = f.
Proof.
  revert b. induction f as [|m r0 IHr|m cs0 IHcs r0 IHr]; intros b Hnd H.
  - done.
  - apply NoDup_cons_file in Hnd as [Hh Hr]. simpl in *. by rewrite IHr.
  - apply NoDup_cons_dir in Hnd as (Hh1 & Hh2 & Hcs & Hr & Hdis). simpl in *.
    destruct (decide (_ = p)) as [Heq|Hne].
    + inversion H; subst cs0. subst p.
      by rewrite (set_children_none _ r0) by by apply lookup_dir_notin.
    + destruct (lookup_dir _ cs0 p) as [x0|] eqn:Hl.
      * inversion H; subst x0.
        assert (Hpc : p ∈ (nodes (b +:+ m +:+ "/") cs0).*1)
          by by eapply lookup_dir_path.
        rewrite (IHcs _ Hcs Hl).
        by rewrite (set_children_none _ r0) by (apply lookup_dir_notin; auto).
      * by rewrite (set_children_none _ cs0), IHr.
Qed.

End Forest.

(** *** Deleting *)

Lemma drop_length_app (s t : string) :
  GoStrings.drop (String.length s) (s +:+ t) = t.
Proof. induction s; simpl; auto. Qed.

Lemma length_app_slash (s : string) :
  String.length (s +:+ "/") = Datatypes.S (String.length s).
Proof. induction s; simpl; auto. Qed.

(** A path built with a trailing slash is a directory path. *)
Lemma isDirectory_slash (s : string) : isDirectory (s +:+ "/") = true.
Proof.
  unfold isDirectory, HasSuffix. rewrite length_app_slash. simpl.
  rewrite Nat.sub_0_r, drop_length_app. reflexivity.
Qed.



Section Rm.
Context {S : Type} (respond : Cmd -> S -> Reply * S).
Implicit Types (w : World Ftp Event S) (f : Ftp).

(** One step of [Rm] on a path without trailing slash: a single [Delete]. *)
Lemma Rm_file d f path w :
  isDirectory path = false ->
  Rm respond (Datatypes.S d) f path w =
  Some (transformError (r_err (call respond (Client_Delete (client f) path) w).1),
        (call respond (Client_Delete (client f) path) w).2).
Proof.
  intros Hp. simpl. rewrite Hp. by destruct (call _ _ _).
Qed.

(** One step of [Rm] on a path with trailing slash. *)
Lemma Rm_dir d f path w :
  isDirectory path = true ->
  Rm respond (Datatypes.S d) f path w =
  let l := call respond (Client_ReadDir (client f) path) w in
  match transformError (r_err l.1) with
  | Some _ => Some (r_err l.1, l.2)
  | None =>
      match Rm_entries (Rm respond d f) path (r_infos l.1) l.2 with
      | None => None
      | Some (Some err, w) => Some (Some err, w)
      | Some (None, w) =>
          Some (transformError
                  (r_err (call respond (Client_Rmdir (client f) path) w).1),
                (call respond (Client_Rmdir (client f) path) w).2)
      end
  end.
Proof.
  intros Hp. simpl. rewrite Hp. unfold Ls.
  destruct (call respond (Client_ReadDir _ _) w) as [r w1]. simpl.
  destruct (transformError (r_err r)); [done|].
  destruct (Rm_entries _ _ _ _) as [[[e|] w2]|]; try done.
  by destruct (call _ _ _).
Qed.

End Rm.

(** *** [Rm] against the server tree *)

Section Tree.
Context (ack : option error) (denied : string -> bool).
Hypothesis ack_ok : transformError ack = None.
Abbreviation srv := (FtpServer.respond ack denied).
Implicit Types (w : World Ftp Event forest) (f : Ftp) (fs cs : forest).

Lemma wf_remove fs q : wf fs -> wf (remove "" fs q).
Proof.
  intros [Hnd Hall]. pose proof (remove_sublist "" fs q) as Hs. split.
  - refine (sublist_NoDup _ _ Hnd _). by apply fmap_sublist.
  - apply Forall_forall. intros x Hx.
    eapply Forall_forall in Hall; [exact Hall|]. by eapply elem_of_sublist.
Qed.

Lemma srv_ReadDir c p fs cs :
  lookup_dir "" fs p = Some cs ->
  srv (Client_ReadDir c p) fs = (mkReply ack (infos cs) "", fs).
Proof. intros H. simpl. by rewrite H. Qed.

Lemma srv_Delete c p fs :
  denied p = false -> (p, false) ∈ nodes "" fs ->
  srv (Client_Delete c p) fs = (mkReply ack [] "", remove "" fs p).
Proof. intros Hd Hin. simpl. rewrite Hd. by rewrite bool_decide_eq_true_2. Qed.

Lemma srv_Rmdir c p fs :
  denied p = false -> lookup_dir "" fs p = Some Nil ->
  srv (Client_Rmdir c p) fs = (mkReply ack [] "", remove "" fs p).
Proof. intros Hd H. simpl. by rewrite Hd, H. Qed.

Lemma wf_is_dir fs x : wf fs -> x ∈ nodes "" fs -> isDirectory x.1 = x.2.
Proof. intros [_ Hall] Hx. eapply Forall_forall in Hall; eauto. Qed.

(** The loop of [Rm] empties a directory of a well-formed tree: every entry
    is deleted, depth first and in listing order. *)
Lemma Rm_entries_tree cs :
  forall fs p d f w,
    wf fs -> remote w = fs -> lookup_dir "" fs p = Some cs ->
    (height cs <= d)%nat ->
    (forall x, x ∈ nodes p cs -> denied x.1 = false) ->
    Rm_entries (Rm srv d f) p (infos cs) w =
    Some (None, mkWorld (cache w) (next w) (set_children "" fs p Nil)
                        (log w ++ rm_events ack (client f) p cs)).
Proof.
  induction cs as [|n r IHr|n cs' IHcs r IHr];
    intros fs p d f w Hwf Hrem Hl Hh Hden.
  - simpl. rewrite app_nil_r, (set_children_same _ _ _ _ (proj1 Hwf) Hl).
    destruct w; simpl in *; by subst.
  - destruct d as [|d]; [simpl in Hh; lia|].
    assert (Hin : (p +:+ n, false) ∈ nodes "" fs).
    { eapply lookup_dir_nodes; [exact Hl|]. apply elem_of_cons. by left. }
    pose proof (wf_is_dir _ _ Hwf Hin) as Hnd. simpl in Hnd.
    assert (Hdn : denied (p +:+ n) = false).
    { apply (Hden (p +:+ n, false)). apply elem_of_cons. by left. }
    cbn [infos Rm_entries IsDir Name].
    rewrite (Rm_file _ _ _ _ _ Hnd), call_eq. cbn [fst snd].
    rewrite Hrem, (srv_Delete _ _ _ Hdn Hin). cbn [fst snd r_err].
    rewrite ack_ok.
    pose proof (remove_child "" fs p (ConsFile n r) (p +:+ n)
                  (proj1 Hwf) Hl eq_refl) as Hrm.
    cbn [tail_of] in Hrm. rewrite Hrm.
    erewrite (IHr (set_children "" fs p r) p); cbn [remote cache next log].
    + by rewrite set_children_twice, <- app_assoc.
    + rewrite <- Hrm. by apply wf_remove.
    + done.
    + by eapply lookup_set_children.
    + simpl in Hh. lia.
    + intros x Hx. apply Hden. apply elem_of_cons. by right.
  - destruct d as [|d]; [simpl in Hh; lia|].
    set (q := p +:+ n +:+ "/").
    assert (Hin : (q, true) ∈ nodes "" fs).
    { eapply lookup_dir_nodes; [exact Hl|]. apply elem_of_cons. by left. }
    pose proof (wf_is_dir _ _ Hwf Hin) as Hnd. simpl in Hnd.
    assert (Hdn : denied q = false).
    { apply (Hden (q, true)). apply elem_of_cons. by left. }
    pose proof (lookup_child_dir _ _ _ _ _ _ (proj1 Hwf) Hl) as Hlq.
    cbn [infos Rm_entries IsDir Name]. fold q.
    rewrite (Rm_dir _ _ _ _ _ Hnd). cbv zeta.
    rewrite call_eq. cbn [fst snd].
    rewrite Hrem, (srv_ReadDir _ _ _ _ Hlq). cbn [fst snd r_err r_infos].
    rewrite ack_ok.
    erewrite (IHcs fs q d); cbn [remote cache next log]; try done;
      [|simpl in Hh; lia
       |intros x Hx; apply Hden; apply elem_of_cons; right;
        apply elem_of_app; by left].
    rewrite call_eq. cbn [fst snd remote cache next log].
    rewrite (srv_Rmdir _ _ _ Hdn (lookup_set_children _ _ _ _ _ Hlq)).
    cbn [fst snd r_err]. rewrite ack_ok.
    rewrite remove_set_children.
    pose proof (remove_child "" fs p (ConsDir n cs' r) q
                  (proj1 Hwf) Hl eq_refl) as Hrm.
    cbn [tail_of] in Hrm. rewrite Hrm.
    erewrite (IHr (set_children "" fs p r) p); cbn [remote cache next log].
    + rewrite set_children_twice. simpl. fold q.
      by rewrite <- !app_assoc.
    + rewrite <- Hrm. by apply wf_remove.
    + done.
    + by eapply lookup_set_children.
    + simpl in Hh. lia.
    + intros x Hx. apply Hden. apply elem_of_cons. right.
      apply elem_of_app. by right.
Qed.

(** [Rm] on a directory of a well-formed tree: the directory is listed, its
    content deleted, then the directory itself removed. *)
Lemma Rm_directory_tree fs p cs d f w :
  wf fs -> remote w = fs -> lookup_dir "" fs p = Some cs ->
  (height cs <= d)%nat ->
  (forall x, x ∈ (p, true) :: nodes p cs -> denied x.1 = false) ->
  Rm srv (Datatypes.S d) f p w =
  Some (None,
        mkWorld (cache w) (next w) (remove "" fs p)
          (log w ++
           (Client_ReadDir (client f) p, mkReply ack (infos cs) "")
             :: rm_events ack (client f) p cs
             ++ [(Client_Rmdir (client f) p, mkReply ack [] "")])).
Proof.
  intros Hwf Hrem Hl Hh Hden.
  assert (Hin : (p, true) ∈ nodes "" fs)
      by exact (proj1 (lookup_dir_nodes _ _ _ _ Hl)).
  pose proof (wf_is_dir _ _ Hwf Hin) as Hnd. simpl in Hnd.
  assert (Hdn : denied p = false).
  { apply (Hden (p, true)). apply elem_of_cons. by left. }
  rewrite (Rm_dir _ _ _ _ _ Hnd). cbv zeta.
  rewrite call_eq. cbn [fst snd].
  rewrite Hrem, (srv_ReadDir _ _ _ _ Hl). cbn [fst snd r_err r_infos].
  rewrite ack_ok.
  erewrite (Rm_entries_tree cs fs p d); cbn [remote cache next log]; try done;
    [|intros x Hx; apply Hden; apply elem_of_cons; by right].
  rewrite call_eq. cbn [fst snd remote cache next log].
  rewrite (srv_Rmdir _ _ _ Hdn (lookup_set_children _ _ _ _ _ Hl)).
  cbn [fst snd r_err]. rewrite ack_ok, remove_set_children.
  by rewrite <- !app_assoc.
Qed.

(** [Rm] on a file of a well-formed tree. *)
Lemma Rm_file_tree fs p d f w :
  wf fs -> remote w = fs -> (p, false) ∈ nodes "" fs -> denied p = false ->
  Rm srv (Datatypes.S d) f p w =
  Some (None,
        mkWorld (cache w) (next w) (remove "" fs p)
          (log w ++ [(Client_Delete (client f) p, mkReply ack [] "")])).
Proof.
  intros Hwf Hrem Hin Hdn.
  pose proof (wf_is_dir _ _ Hwf Hin) as Hnd. simpl in Hnd.
  rewrite (Rm_file _ _ _ _ _ Hnd), call_eq. cbn [fst snd].
  rewrite Hrem, (srv_Delete _ _ _ Hdn Hin). cbn [fst snd r_err].
  by rewrite ack_ok.
Qed.

End Tree.

(** C3.  [Rm] on a path without trailing slash is one [Delete] of that
    path.  [Rm] on a path with trailing slash that names a directory of a
    well-formed server tree lists the directory, deletes its entries in
    listing order (a sub-directory by the same procedure on its path with a
    slash appended, a file by [Delete]), then removes the directory itself:
    afterwards the directory and everything below it are gone and every
    other entry is still there.  This holds for a tree of any depth not
    above the given bound, also when the client library reports every
    completed command as an error value with a positive code. *)
Theorem Rm_deletes_recursively :
  (forall S (respond : Cmd -> S -> Reply * S) d f path (w : World Ftp Event S),
     isDirectory path = false ->
     Rm respond (Datatypes.S d) f path w =
     Some (transformError
             (r_err (call respond (Client_Delete (client f) path) w).1),
           (call respond (Client_Delete (client f) path) w).2)) /\
  (forall ack denied fs p cs d f (w : World Ftp Event forest),
     transformError ack = None ->
     wf fs -> remote w = fs -> lookup_dir "" fs p = Some cs ->
     (height cs <= d)%nat ->
     (forall x, x ∈ (p, true) :: nodes p cs -> denied x.1 = false) ->
     isDirectory p = true /\
     Rm (FtpServer.respond ack denied) (Datatypes.S d) f p w =
     Some (None,
           mkWorld (cache w) (next w) (remove "" fs p)
             (log w ++
              (Client_ReadDir (client f) p, mkReply ack (infos cs) "")
                :: rm_events ack (client f) p cs
                ++ [(Client_Rmdir (client f) p, mkReply ack [] "")])) /\
     nodes "" fs ≡ₚ (p, true) :: nodes p cs ++ nodes "" (remove "" fs p)).
Proof.
  split.
  - intros. by apply Rm_file.
  - intros ack denied fs p cs d f w Hack Hwf Hrem Hl Hh Hden.
    split; [|split].
    + assert (Hin : (p, true) ∈ nodes "" fs)
      by exact (proj1 (lookup_dir_nodes _ _ _ _ Hl)).
      apply (wf_is_dir _ _ Hwf Hin).
    + by apply Rm_directory_tree.
    + apply nodes_remove_dir; [apply Hwf|done].
Qed.

Lemma example_tree_wf : wf example_tree.
Proof.
  split.
  - apply (bool_decide_unpack _). vm_compute. exact I.
  - apply (bool_decide_unpack _). vm_compute. exact I.
Defined.

Lemma Rm_deletes_recursively_witness :
  Rm plain 3 (mkFtp 0) "/docs/" ftp_world0 =
  Some (None,
        mkWorld (NewAppCache 2) 0
          (ConsDir "" (ConsFile "readme" Nil) Nil)
          [(Client_ReadDir 0 "/docs/",
            mkReply None [mkInfo "a.txt" false; mkInfo "old" true;
                          mkInfo "z.txt" false] "");
           (Client_Delete 0 "/docs/a.txt", mkReply None [] "");
           (Client_ReadDir 0 "/docs/old/",
            mkReply None [mkInfo "b.txt" false; mkInfo "c.txt" false] "");
           (Client_Delete 0 "/docs/old/b.txt", mkReply None [] "");
           (Client_Delete 0 "/docs/old/c.txt", mkReply None [] "");
           (Client_Rmdir 0 "/docs/old/", mkReply None [] "");
           (Client_Delete 0 "/docs/z.txt", mkReply None [] "");
           (Client_Rmdir 0 "/docs/", mkReply None [] "")]).
Proof.
  pose proof (proj2 Rm_deletes_recursively None (fun _ => false) example_tree
                "/docs/"
                (ConsFile "a.txt"
                   (ConsDir "old" (ConsFile "b.txt" (ConsFile "c.txt" Nil))
                      (ConsFile "z.txt" Nil)))
                2%nat (mkFtp 0) ftp_world0 eq_refl example_tree_wf eq_refl) as H.
  destruct H as (_ & H & _).
  - vm_compute. reflexivity.
  - vm_compute. lia.
  - done.
  - exact H.
Defined.

(** *** Tolerated and genuine failures *)




Section Failures.
Context {S : Type} (respond : Cmd -> S -> Reply * S).
Implicit Types (w : World Ftp Event S) (f : Ftp).







End Failures.

(** *** Refusals on the server tree *)


Section Refusals.
Context (ack : option error) (denied : string -> bool).
Hypothesis ack_ok : transformError ack = None.
Abbreviation srv := (FtpServer.respond ack denied).
Implicit Types (w : World Ftp Event forest) (f : Ftp) (fs cs : forest).











End Refusals.

Section Aborts.
Context {S : Type} (respond : Cmd -> S -> Reply * S).
Implicit Types (w : World Ftp Event S) (f : Ftp).


Lemma Rm_entries_goes_on
    (rm : string -> World Ftp Event S -> option (option error * World Ftp Event S))
    path entry rest w err w1 :
  rm (if IsDir entry then path +:+ Name entry +:+ "/"
      else path +:+ Name entry) w = Some (err, w1) ->
  transformError err = None ->
  Rm_entries rm path (entry :: rest) w = Rm_entries rm path rest w1.
Proof. intros H Ht. cbn [Rm_entries]. by rewrite H, Ht. Qed.




End Aborts.

(** *** The bound on the recursion *)

Section Fuel.
Context {S : Type} (respond : Cmd -> S -> Reply * S).
Implicit Types (w : World Ftp Event S) (f : Ftp).



End Fuel.



(** *** Reading *)

Lemma append_empty_r (s : string) : s +:+ "" = s.
Proof.
  induction s as [|c s IH]; [done|].
  change (String c (s +:+ "") = String c s). by rewrite IH.
Qed.

Section Reading.
Context {S : Type} (respond : Cmd -> S -> Reply * S).
Implicit Types (rt : Runtime (S := S)) (f : Ftp).

(** [Cat] itself makes no call and never returns an error. *)
Lemma Cat_immediate f path rt :
  Cat f path rt =
  (next (world rt), None,
   mkRuntime (mkWorld (cache (world rt)) (Datatypes.S (next (world rt)))
                      (remote (world rt)) (log (world rt)))
             (<[next (world rt) := mkPipe [] None None]> (pipes rt))
             (goroutines rt ++ [Producer f path (next (world rt))])).
Proof. reflexivity. Qed.

(** What the consumer reads once the goroutine has run: the bytes that
    [Retrieve] delivered, then end of input if the transfer went well and
    an error if it did not. *)
Lemma Cat_stream f path rt :
  goroutines rt = [] ->
  let r := (respond (Client_Retrieve (client f) path) (remote (world rt))).1 in
  ReadAll (Cat f path rt).1.1 (run_all respond (Cat f path rt).2) =
  (r_data r, Some (match r_err r with Some _ => ErrClosedPipe | None => EOF end)).
Proof.
  intros Hg. rewrite Cat_immediate. cbn [fst snd]. unfold run_all.
  cbn [world pipes goroutines]. rewrite Hg. cbn [app foldl run fst snd].
  rewrite call_eq. cbn [fst snd remote].
  rewrite lookup_insert_eq. cbn [default].
  destruct (respond _ _) as [[e l d] s']. cbn [fst snd r_err r_data].
  unfold ReadAll. cbn [pipes]. rewrite lookup_insert_eq.
  destruct d as [|c d], e as [e|]; simpl; by rewrite ?append_empty_r.
Qed.

End Reading.

(** For the FTP adapter, [Touch] is [Save] with an empty source. *)
Lemma Touch_is_Save_empty {S} (respond : Cmd -> S -> Reply * S) f path
    (w : World Ftp Event S) :
  Touch respond f path w = Save respond f path (NewReader "") w.
Proof. reflexivity. Qed.

(** C8 (amended).  The FTP read returns the read end of a pipe and no
    error for every path, and makes no call to the server itself: the
    transfer runs in the goroutine it starts.  Once that goroutine has run,
    the consumer reads the bytes that were transferred and then end of
    input, or, if the transfer failed, an error.  The SMB read resolves the
    path and opens the remote file before it returns: it returns the open
    file after one successful [Open], and otherwise returns no stream and
    the error of the resolution or of the failed [Open]. *)
Theorem Cat_streams :
  (forall S f path (rt : Runtime (S := S)),
     (Cat f path rt).1.2 = None /\
     log (world (Cat f path rt).2) = log (world rt) /\
     remote (world (Cat f path rt).2) = remote (world rt)) /\
  (forall S (respond : Cmd -> S -> Reply * S) f path (rt : Runtime (S := S)),
     goroutines rt = [] ->
     let r := (respond (Client_Retrieve (client f) path) (remote (world rt))).1 in
     ReadAll (Cat f path rt).1.1 (run_all respond (Cat f path rt).2) =
     (r_data r,
      Some (match r_err r with Some _ => ErrClosedPipe | None => EOF end))) /\
  (forall S (respond : Samba.Cmd -> S -> Samba.Reply * S) smb path
          (w : World Samba.Samba Samba.Event S),
     let '(st, err, w') := Samba.Cat respond smb path w in
     (err = None /\ st = Some (next w) /\
      exists sh p r,
        Samba.toSambaPath smb path = (Some sh, p, None) /\
        log w' = log w ++ [(Samba.Share_Open sh p, r)] /\
        Samba.r_err r = None) \/
     (err <> None /\ st = None /\
      ((Samba.toSambaPath smb path).2 = err /\ w' = w \/
       exists sh p r,
         Samba.toSambaPath smb path = (Some sh, p, None) /\
         log w' = log w ++ [(Samba.Share_Open sh p, r)] /\
         Samba.r_err r <> None /\
         err = Samba.fromSambaErr (Samba.r_err r)))).
Proof.
  split; [|split].
  - intros. by rewrite Cat_immediate.
  - intros S respond f path rt Hg. by apply Cat_stream.
  - intros. apply SambaFacts.Cat_outcome.
Qed.

(** A transfer that breaks after three bytes: the call returns the stream,
    and the consumer reads the three bytes and then an error. *)
Lemma Cat_streams_witness :
  goroutines ftp_runtime0 = [] /\
  ReadAll (Cat (mkFtp 0) "/a.bin" ftp_runtime0).1.1
          (run_all broken_transfer (Cat (mkFtp 0) "/a.bin" ftp_runtime0).2)
  = ("abc", Some ErrClosedPipe).
Proof.
  split; [reflexivity|].
  apply (proj1 (proj2 Cat_streams) unit broken_transfer (mkFtp 0) "/a.bin"
           ftp_runtime0).
  reflexivity.
Defined.

(** The probe fails on a server without root directory. *)
Lemma Init_probe_failure_witness :
  (Get ∅ (cache ftp_world_noroot)).1 = None /\
  (Init plain ∅ ftp_world_noroot).1.1 = (None, Some ErrAuthenticationFailed) /\
  log (Init plain ∅ ftp_world_noroot).2 =
    [(DialConfig (mkConfig "anonymous" "anonymous" 5 10) "localhost:21",
      mkReply None [] "");
     (Client_ReadDir 0 "/", refused "No such directory");
     (Client_Close 0, mkReply None [] "")].
Proof.
  split; [reflexivity|].
  pose proof (proj2 (Init_probe_failure plain ∅ ftp_world_noroot)
                eq_refl eq_refl) as H.
  vm_compute in H. vm_compute. apply H. discriminate.
Defined.

Lemma Init_fills_defaults_witness :
  (Get ∅ (cache ftp_world0)).1 = None /\
  ((Init plain ∅ ftp_world0).1.2 =
     <["password" := "anonymous"]>
       (<["username" := "anonymous"]>
          (<["port" := "21"]> (<["hostname" := "localhost"]> ∅))) /\
   exists r evs,
     log (Init plain ∅ ftp_world0).2 =
     log ftp_world0 ++ (DialConfig (mkConfig "anonymous" "anonymous" 5 10)
                                   "localhost:21", r) :: evs) /\
  fill_defaults {["hostname" := "files.example.org"; "conn" := "8"]}
    !! "hostname" = Some "files.example.org" /\
  ConnectionsPerHost
    (configWithoutTLS
       (fill_defaults {["hostname" := "files.example.org"; "conn" := "8"]}))
  = 8.
Proof.
  split; [reflexivity|]. split; [|split].
  - apply (proj1 Init_fills_defaults _ plain ftp_world0). reflexivity.
  - apply (proj1 (proj2 Init_fills_defaults)
             {["hostname" := "files.example.org"; "conn" := "8"]}
             "hostname" "files.example.org");
      [vm_compute; reflexivity|discriminate].
  - apply (proj1 (proj2 (proj2 Init_fills_defaults))
             {["hostname" := "files.example.org"; "conn" := "8"]} 8);
      [vm_compute; reflexivity|lia].
Defined.

End FtpFacts.

(** ** Go's string functions on paths *)

Module GoStringsFacts.
Import Common GoStrings PathSpec.

Lemma app_assoc_s (a b c : string) : (a +:+ b) +:+ c = a +:+ b +:+ c.
Proof.
  induction a as [|x a IH]; [done|].
  change (String x ((a +:+ b) +:+ c) = String x (a +:+ b +:+ c)). by rewrite IH.
Qed.

Lemma app_nil_inv (a b : string) : a +:+ b = "" -> a = "" /\ b = "".
Proof. by destruct a. Qed.

Lemma length_app_s (a b : string) :
  String.length (a +:+ b) = (String.length a + String.length b)%nat.
Proof.
  induction a as [|x a IH]; [done|].
  change (Datatypes.S (String.length (a +:+ b))
          = Datatypes.S (String.length a + String.length b)). by rewrite IH.
Qed.

Lemma HasPrefix_byte (c d : ascii) (s : string) :
  HasPrefix (String c s) (String d "") = Ascii.eqb c d.
Proof.
  unfold HasPrefix. simpl.
  destruct (ascii_dec d c) as [<-|Hn].
  - rewrite Ascii.eqb_refl. by destruct s.
  - symmetry. apply Ascii.eqb_neq. congruence.
Qed.

(** Cutting at the first occurrence of a one-byte separator. *)
Lemma Cut_cons (c d : ascii) (s : string) :
  Cut (String c s) (String d "") =
  if Ascii.eqb c d then Some ("", s)
  else match Cut s (String d "") with
       | Some (a, b) => Some (String c a, b)
       | None => None
       end.
Proof. cbn [Cut]. by rewrite HasPrefix_byte. Qed.

Lemma Cut_free (d : ascii) (a : string) :
  byte_in d a = false -> Cut a (String d "") = None.
Proof.
  induction a as [|c a IH]; intros H; [done|].
  simpl in H. apply orb_false_iff in H as [Hc Ha].
  by rewrite Cut_cons, Hc, (IH Ha).
Qed.

Lemma Cut_first (d : ascii) (a b : string) :
  byte_in d a = false ->
  Cut (a +:+ String d b) (String d "") = Some (a, b).
Proof.
  induction a as [|c a IH]; intros H.
  - change ("" +:+ String d b) with (String d b).
    by rewrite Cut_cons, Ascii.eqb_refl.
  - simpl in H. apply orb_false_iff in H as [Hc Ha].
    change (String c a +:+ String d b) with (String c (a +:+ String d b)).
    by rewrite Cut_cons, Hc, (IH Ha).
Qed.

(** What [Cut] returns: the text before the separator is free of it, and
    the two parts with the separator between them are the text. *)
Lemma Cut_Some (d : ascii) (s a b : string) :
  Cut s (String d "") = Some (a, b) ->
  byte_in d a = false /\ s = a +:+ String d b.
Proof.
  revert a b. induction s as [|c s IH]; intros a b H; [done|].
  rewrite Cut_cons in H. destruct (Ascii.eqb c d) eqn:Hc.
  - inversion H; subst. apply Ascii.eqb_eq in Hc as ->. done.
  - destruct (Cut s (String d "")) as [[a' b']|] eqn:Hs; [|done].
    inversion H; subst. destruct (IH _ _ eq_refl) as [Ha ->].
    split; [|done]. simpl. by rewrite Hc.
Qed.

Lemma Cut_None (d : ascii) (s : string) :
  Cut s (String d "") = None -> byte_in d s = false.
Proof.
  induction s as [|c s IH]; intros H; [done|].
  rewrite Cut_cons in H. destruct (Ascii.eqb c d) eqn:Hc; [done|].
  destruct (Cut s (String d "")) as [[a' b']|] eqn:Hs; [done|].
  simpl. by rewrite Hc, IH.
Qed.

Lemma Join_cons (a : string) (l : list string) (sep : string) :
  l <> [] -> Join (a :: l) sep = a +:+ sep +:+ Join l sep.
Proof. by destruct l. Qed.

(** [Split] undoes [Join] on pieces that are free of the separator. *)
Lemma genSplit_Join (d : ascii) (l : list string) (n : nat) :
  l <> [] -> Forall (fun x => byte_in d x = false) l ->
  (length l <= Datatypes.S n)%nat ->
  genSplit n (Join l (String d "")) (String d "") = l.
Proof.
  revert n. induction l as [|a l IH]; intros n Hne Hall Hlen; [done|].
  apply Forall_cons in Hall as [Ha Hl].
  destruct l as [|b l].
  - simpl. destruct n; [done|]. simpl. by rewrite (Cut_free _ _ Ha).
  - rewrite Join_cons by done.
    destruct n as [|n]; [simpl in Hlen; lia|].
    cbn [genSplit].
    change (String d "" +:+ Join (b :: l) (String d ""))
      with (String d (Join (b :: l) (String d ""))).
    rewrite (Cut_first _ _ _ Ha). f_equal.
    apply IH; [done|done|simpl in *; lia].
Qed.

Lemma length_Join (l : list string) (sep : string) :
  sep <> "" -> (length l <= Datatypes.S (String.length (Join l sep)))%nat.
Proof.
  intros Hsep. induction l as [|a l IH]; [simpl; lia|].
  destruct l as [|b l]; [simpl; lia|].
  rewrite Join_cons by done. rewrite !length_app_s.
  destruct sep; [done|]. simpl in *. lia.
Qed.

Lemma Split_Join (d : ascii) (l : list string) :
  l <> [] -> Forall (fun x => byte_in d x = false) l ->
  Split (Join l (String d "")) (String d "") = l.
Proof.
  intros Hne Hall. unfold Split. apply genSplit_Join; [done|done|].
  by apply length_Join.
Qed.

(** Every piece that [Split] returns is free of the separator. *)
Lemma genSplit_free (d : ascii) (n : nat) (s : string) :
  (String.length s <= n)%nat ->
  Forall (fun x => byte_in d x = false) (genSplit n s (String d "")).
Proof.
  revert s. induction n as [|n IH]; intros s Hlen.
  - destruct s; [|simpl in Hlen; lia]. by apply Forall_singleton.
  - cbn [genSplit]. destruct (Cut s (String d "")) as [[a b]|] eqn:Hc.
    + apply Cut_Some in Hc as [Ha ->]. apply Forall_cons. split; [done|].
      apply IH. rewrite length_app_s in Hlen. simpl in Hlen. lia.
    + apply Forall_singleton. by apply Cut_None.
Qed.

Lemma Split_free (d : ascii) (s : string) :
  Forall (fun x => byte_in d x = false) (Split s (String d "")).
Proof. unfold Split. by apply genSplit_free. Qed.

(** [Join] undoes [Split]. *)
Lemma Join_genSplit (d : ascii) (n : nat) (s : string) :
  (String.length s <= n)%nat ->
  Join (genSplit n s (String d "")) (String d "") = s.
Proof.
  revert s. induction n as [|n IH]; intros s Hlen; [done|].
  cbn [genSplit]. destruct (Cut s (String d "")) as [[a b]|] eqn:Hc; [|done].
  apply Cut_Some in Hc as [Ha ->].
  rewrite Join_cons by apply SambaFacts.genSplit_nonempty.
  rewrite IH; [done|]. rewrite length_app_s in Hlen. simpl in Hlen. lia.
Qed.

Lemma Join_Split (d : ascii) (s : string) :
  Join (Split s (String d "")) (String d "") = s.
Proof. unfold Split. by apply Join_genSplit. Qed.

(** Bytes of a joined text. *)
Lemma byte_in_app (c : ascii) (a b : string) :
  byte_in c (a +:+ b) = byte_in c a || byte_in c b.
Proof.
  induction a as [|x a IH]; [done|].
  change (byte_in c (String x (a +:+ b)) = byte_in c (String x a) || byte_in c b).
  simpl. by rewrite IH, orb_assoc.
Qed.

Lemma byte_in_Join (c : ascii) (l : list string) (sep : string) :
  byte_in c sep = false -> Forall (fun x => byte_in c x = false) l ->
  byte_in c (Join l sep) = false.
Proof.
  intros Hsep. induction l as [|a l IH]; intros Hall; [done|].
  apply Forall_cons in Hall as [Ha Hl].
  destruct l as [|b l]; [done|].
  rewrite Join_cons by done. rewrite !byte_in_app, Ha, Hsep. by apply IH.
Qed.

Lemma byte_in_TrimLeft (c : ascii) (s cutset : string) :
  byte_in c s = false -> byte_in c (TrimLeft s cutset) = false.
Proof.
  induction s as [|x s IH]; intros H; [done|].
  simpl. destruct (in_cutset cutset x); [|done].
  simpl in H. apply orb_false_iff in H as [_ H]. auto.
Qed.

(** Trimming. *)
Lemma TrimLeft_no_prefix (s cutset : string) :
  match TrimLeft s cutset with
  | String c _ => in_cutset cutset c = false
  | EmptyString => True
  end.
Proof.
  induction s as [|x s IH]; [done|]. simpl.
  destruct (in_cutset cutset x) eqn:Hx; [done|]. exact Hx.
Qed.

Lemma TrimLeft_id (c : ascii) (s cutset : string) :
  in_cutset cutset c = false -> TrimLeft (String c s) cutset = String c s.
Proof. intros H. simpl. by rewrite H. Qed.

Lemma TrimRight_app (a t cutset : string) :
  TrimRight t cutset <> "" ->
  TrimRight (a +:+ t) cutset = a +:+ TrimRight t cutset.
Proof.
  intros Ht. induction a as [|x a IH]; [done|].
  change (TrimRight (String x (a +:+ t)) cutset = String x (a +:+ TrimRight t cutset)).
  cbn [TrimRight]. rewrite IH.
  destruct (a +:+ TrimRight t cutset) eqn:E; [|done].
  by apply app_nil_inv in E as [_ ?].
Qed.

Lemma TrimRight_free (d : ascii) (a : string) :
  byte_in d a = false -> TrimRight a (String d "") = a.
Proof.
  induction a as [|x a IH]; intros H; [done|].
  simpl in H. apply orb_false_iff in H as [Hx Ha].
  cbn [TrimRight]. rewrite (IH Ha).
  destruct a; [|done]. simpl. by rewrite Hx.
Qed.

Lemma TrimRight_snoc (d : ascii) (t : string) :
  TrimRight (t +:+ String d "") (String d "") = TrimRight t (String d "").
Proof.
  induction t as [|x t IH].
  - simpl. by rewrite Ascii.eqb_refl.
  - change (TrimRight (String x (t +:+ String d "")) (String d "")
            = TrimRight (String x t) (String d "")).
    cbn [TrimRight]. by rewrite IH.
Qed.

Lemma TrimLeft_app (p q cutset : string) :
  TrimLeft p cutset <> "" -> TrimLeft (p +:+ q) cutset = TrimLeft p cutset +:+ q.
Proof.
  induction p as [|x p IH]; intros H; [done|].
  change (TrimLeft (String x (p +:+ q)) cutset = TrimLeft (String x p) cutset +:+ q).
  simpl in *. destruct (in_cutset cutset x); [auto|done].
Qed.

Lemma TrimLeft_all (d : ascii) (p : string) :
  TrimLeft p (String d "") = "" ->
  TrimLeft (p +:+ String d "") (String d "") = "".
Proof.
  induction p as [|x p IH]; intros H.
  - simpl. by rewrite Ascii.eqb_refl.
  - change (TrimLeft (String x (p +:+ String d "")) (String d "") = "").
    simpl in *. destruct (Ascii.eqb x d || false); [auto|done].
Qed.

(** Leading and trailing cut-set bytes do not matter to [Trim]. *)
Lemma Trim_cons (d : ascii) (s : string) :
  Trim (String d s) (String d "") = Trim s (String d "").
Proof. unfold Trim. simpl. by rewrite Ascii.eqb_refl. Qed.

Lemma Trim_snoc (d : ascii) (s : string) :
  Trim (s +:+ String d "") (String d "") = Trim s (String d "").
Proof.
  unfold Trim. destruct (TrimLeft s (String d "")) eqn:E.
  - by rewrite TrimLeft_all.
  - rewrite TrimLeft_app by (by rewrite E). rewrite E. apply TrimRight_snoc.
Qed.

End GoStringsFacts.

(** ** More on the SMB adapter *)

Module SambaExtra.
Import Common GoStrings PathSpec Samba CacheFacts Examples GoStringsFacts SambaFacts.

(** *** Path resolution *)

Lemma Join_nonempty (a : string) (l : list string) (sep : string) :
  a <> "" -> Join (a :: l) sep <> "".
Proof.
  intros Ha. destruct l as [|b l]; [done|].
  rewrite Join_cons by done. destruct a; [done|]. done.
Qed.

Lemma TrimRight_Join (d : ascii) (l : list string) :
  Forall (fun x => x <> "" /\ byte_in d x = false) l ->
  TrimRight (Join l (String d "")) (String d "") = Join l (String d "").
Proof.
  induction l as [|a l IH]; intros Hall; [done|].
  apply Forall_cons in Hall as [[Ha Hf] Hl].
  destruct l as [|b l]; [by apply TrimRight_free|].
  rewrite Join_cons by done. rewrite <- app_assoc_s.
  rewrite TrimRight_app; rewrite (IH Hl); [done|].
  apply Join_nonempty. by apply Forall_cons in Hl as [[? _] _].
Qed.

Lemma Trim_Join (d : ascii) (l : list string) :
  Forall (fun x => x <> "" /\ byte_in d x = false) l ->
  Trim (Join l (String d "")) (String d "") = Join l (String d "").
Proof.
  intros Hall. unfold Trim.
  assert (Hl : TrimLeft (Join l (String d "")) (String d "")
               = Join l (String d "")).
  { destruct l as [|a l]; [done|].
    pose proof Hall as Hall'. apply Forall_cons in Hall' as [[Ha Hf] _].
    destruct a as [|c a]; [done|].
    assert (Hj : exists t, Join (String c a :: l) (String d "") = String c t).
    { destruct l; [by eexists|]. rewrite Join_cons by done. by eexists. }
    destruct Hj as [t ->]. apply TrimLeft_id. simpl in *.
    apply orb_false_iff in Hf as [Hc _]. by rewrite Hc. }
  rewrite Hl. by apply TrimRight_Join.
Qed.

Lemma TrimLeft_HasPrefix (d : ascii) (s : string) :
  HasPrefix s (String d "") = false -> TrimLeft s (String d "") = s.
Proof.
  destruct s as [|c s]; [done|]. rewrite HasPrefix_byte. intros H.
  apply TrimLeft_id. simpl. by rewrite H.
Qed.

(** X1.  The share named by the first segment is mounted: the path resolves to
    its handle and to the remaining segments joined with backslashes. *)
Theorem toSambaPath_resolves smb name segs h :
  share smb !! name = Some h ->
  Forall segment (name :: segs) ->
  HasPrefix (Join segs "\") "\" = false ->
  toSambaPath smb (Join (name :: segs) "/") = (Some h, Join segs "\", None).
Proof.
  intros Hs Hall Hp. unfold toSambaPath.
  rewrite Trim_Join by exact Hall.
  rewrite Split_Join; [|done|].
  - cbn [hd tl length]. rewrite decide_False by done. rewrite Hs.
    by rewrite TrimLeft_HasPrefix.
  - eapply Forall_impl; [exact Hall|]. by intros x [_ ?].
Qed.

Lemma toSambaPath_resolves_witness :
  share two_shares !! "shareA" = Some 1%nat /\
  toSambaPath two_shares "shareA/sub/dir/file.txt"
  = (Some 1%nat, "sub\dir\file.txt", None).
Proof.
  split; [vm_compute; reflexivity|].
  apply (toSambaPath_resolves two_shares "shareA" ["sub"; "dir"; "file.txt"] 1%nat).
  - vm_compute. reflexivity.
  - repeat (apply Forall_cons; split; [split; [discriminate|reflexivity]|]).
    apply Forall_nil_2.
  - reflexivity.
Defined.

(** X2.  Slashes before and after a path do not matter. *)
Theorem toSambaPath_outer_slashes smb path :
  toSambaPath smb (String "/" path) = toSambaPath smb path /\
  toSambaPath smb (path +:+ "/") = toSambaPath smb path.
Proof.
  unfold toSambaPath. by rewrite Trim_cons, Trim_snoc.
Qed.

(** X3.  What a resolution returns: either the handle of the share that the
    table holds under a slash-free name, with a native path that has no
    forward slash and does not start with a backslash; or nothing but the
    not-found error. *)
Theorem toSambaPath_result smb path :
  (exists name h p,
     toSambaPath smb path = (Some h, p, None) /\
     share smb !! name = Some h /\ byte_in "/" name = false /\
     byte_in "/" p = false /\ HasPrefix p "\" = false) \/
  toSambaPath smb path = (None, "", Some ErrNotFound).
Proof.
  unfold toSambaPath.
  pose proof (Split_free "/" (Trim path "/")) as Hfree.
  pose proof (Split_nonempty (Trim path "/") "/") as Hne.
  destruct (Split (Trim path "/") "/") as [|name rest] eqn:Hsp;
    [by destruct Hne|].
  rewrite decide_False by done. cbn [hd tl].
  apply Forall_cons in Hfree as [Hname Hrest].
  destruct (share smb !! name) as [h|] eqn:Hs; [left|by right].
  exists name, h. eexists. split; [done|]. split; [done|]. split; [done|].
  split.
  - apply byte_in_TrimLeft. by apply byte_in_Join.
  - pose proof (TrimLeft_no_prefix (Join rest "\") "\") as Hp.
    destruct (TrimLeft (Join rest "\") "\") as [|c t]; [done|].
    rewrite HasPrefix_byte. simpl in Hp. by apply orb_false_iff in Hp as [? _].
Qed.

(** *** Error normalisation *)

(** X4.  [fromSambaErr] keeps success and failure apart, leaves no raw
    permission or not-exist error behind, and changes nothing when applied
    a second time. *)
Theorem fromSambaErr_normal err :
  (fromSambaErr err = None <-> err = None) /\
  os_IsPermission (fromSambaErr err) = false /\
  os_IsNotExist (fromSambaErr err) = false /\
  (os_IsPermission err = false -> os_IsNotExist err = false ->
   fromSambaErr err = err) /\
  fromSambaErr (fromSambaErr err) = fromSambaErr err.
Proof.
  split; [|split; [|split; [|split]]].
  - by destruct err as [[| | | | | | |[]| | |]|].
  - by destruct err as [[| | | | | | |[]| | |]|].
  - by destruct err as [[| | | | | | |[]| | |]|].
  - unfold fromSambaErr. by intros -> ->.
  - apply fromSambaErr_idem.
Qed.

Section Calls.
Context {S : Type} (respond : Cmd -> S -> Reply * S).
Implicit Types (w : World Samba Event S) (smb : Samba).

(** *** Operations on a path that names no mounted share *)

(** X5.  When the first segment of the path is not a mounted share, every
    operation returns the not-found error without a single call to the
    remote side. *)
Theorem unmounted_share_no_call smb path w :
  share smb !! hd "" (Split (Trim path "/") "/") = None ->
  (path <> "/" -> Ls respond smb path w = ([], Some ErrNotFound, w)) /\
  Cat respond smb path w = (None, Some ErrNotFound, w) /\
  Mkdir respond smb path w = (Some ErrNotFound, w) /\
  Rm respond smb path w = (Some ErrNotFound, w) /\
  (forall content, Save respond smb path content w = (Some ErrNotFound, w)) /\
  Touch respond smb path w = (Some ErrNotFound, w) /\
  (forall to, Mv respond smb path to w = (Some ErrNotFound, w)) /\
  (forall from, (toSambaPath smb from).2 = None ->
                Mv respond smb from path w = (Some ErrNotFound, w)).
Proof.
  intros Hs. pose proof (toSambaPath_unmounted smb path Hs) as Hp.
  unfold Ls, Cat, Mkdir, Rm, Save, Touch, Mv. rewrite !Hp.
  repeat split; try done.
  - intros Hne. by rewrite decide_False.
  - intros from Hfrom.
    destruct (toSambaPath_cases smb from) as [(sh & p & ->)|(e & He)]; [done|].
    by rewrite He in Hfrom.
Qed.

(** *** File handles *)

(** X6.  [Ls] of a directory, [Save] and [Touch] close what they open:
    either they allocated no handle, or exactly one, and the last call they
    made is the [Close] of that handle, also when copying failed. *)
Theorem handles_are_closed smb path content w :
  (path <> "/" -> closes_its_handle w (Ls respond smb path w).2) /\
  closes_its_handle w (Save respond smb path content w).2 /\
  closes_its_handle w (Touch respond smb path w).2.
Proof.
  unfold Ls, Save, Touch, io_Copy.
  destruct (toSambaPath_cases smb path) as [(sh & p & ->)|(e & ->)].
  - split; [|split].
    + intros Hne. rewrite decide_False by done.
      rewrite !smb_call_eq. cbn [fst snd].
      destruct (r_err _); [by left|]. right. cbn.
      rewrite !smb_call_eq. cbn. split; [done|].
      eexists [_; _], _. by rewrite <- !app_assoc.
    + rewrite !smb_call_eq. cbn [fst snd].
      destruct (r_err _); [by left|]. right. cbn [alloc].
      destruct (data content) as [|c d].
      * destruct (read_err content); rewrite smb_call_eq; cbn;
          (split; [done|]); eexists [_], _; by rewrite <- !app_assoc.
      * rewrite smb_call_eq. cbn [fst snd].
        destruct (r_err _); [|destruct (read_err content)];
          rewrite smb_call_eq; cbn; (split; [done|]);
          eexists [_; _], _; by rewrite <- !app_assoc.
    + rewrite !smb_call_eq. cbn [fst snd].
      destruct (r_err _); [by left|]. right. cbn [alloc].
      rewrite ?smb_call_eq. cbn.
      split; [done|]. eexists [_], _. by rewrite <- !app_assoc.
  - split; [|split]; try (by left).
    intros Hne. rewrite decide_False by done. by left.
Qed.

(** *** Session establishment and eviction *)

Lemma umount_all_calls (l : list (string * nat)) w :
  exists evs,
    log (foldl (fun w kv => (call respond (Share_Umount kv.2) w).2) w l)
    = log w ++ evs /\
    evs.*1 = (fun kv => Share_Umount kv.2) <$> l /\
    cache (foldl (fun w kv => (call respond (Share_Umount kv.2) w).2) w l)
    = cache w /\
    next (foldl (fun w kv => (call respond (Share_Umount kv.2) w).2) w l)
    = next w.
Proof.
  revert w. induction l as [|kv l IH]; intros w; simpl.
  - exists []. by rewrite app_nil_r.
  - destruct (IH (call respond (Share_Umount kv.2) w).2)
      as (evs & -> & Hc & -> & ->).
    rewrite smb_call_eq. cbn [snd log cache next].
    eexists (_ :: evs). rewrite <- app_assoc.
    split; [done|]. split; [|done]. rewrite !fmap_cons. by rewrite Hc.
Qed.

(** X7.  The eviction callback unmounts every share of the evicted adapter
    once, then logs off, whatever these calls answer; it touches neither
    the cache nor the allocator. *)
Theorem onEvict_calls smb w :
  exists evs r,
    log (onEvict respond smb w)
    = log w ++ evs ++ [(Session_Logoff (session smb), r)] /\
    evs.*1 ≡ₚ Share_Umount <$> (map_to_list (share smb)).*2 /\
    cache (onEvict respond smb w) = cache w /\
    next (onEvict respond smb w) = next w.
Proof.
  unfold onEvict.
  destruct (umount_all_calls (map_to_list (share smb)) w)
    as (evs & Hl & Hc & Hca & Hn).
  rewrite smb_call_eq. cbn [snd log cache next]. rewrite Hl, Hca, Hn.
  exists evs. eexists. rewrite <- app_assoc. split; [done|].
  split; [|done]. rewrite Hc. by rewrite <- list_fmap_compose.
Qed.

Lemma smb_evict_all_cache (l : list (gmap string string * Samba)) w :
  cache (foldl (fun w e => onEvict respond e.2 w) w l) = cache w.
Proof.
  revert w. induction l as [|e l IH]; intros w; simpl; [done|].
  rewrite IH. by destruct (onEvict_calls e.2 w) as (? & ? & _ & _ & -> & _).
Qed.

Lemma smb_cache_Set_cache params smb w :
  cache (cache_Set respond params smb w) = (Set_ params smb (cache w)).1.
Proof.
  unfold cache_Set. destruct (Set_ params smb (cache w)) as [c evicted].
  by rewrite smb_evict_all_cache.
Qed.

(** X8.  A second [Init] with the same parameters returns the adapter of the
    first and makes no call. *)
Theorem Init_twice params w s w' :
  (0 < capacity (cache w))%nat ->
  Init respond params w = (Some s, None, w') ->
  exists c,
    Init respond params w'
    = (Some s, None, mkWorld c (next w') (remote w') (log w')).
Proof.
  intros Hcap HI.
  assert (Hhit : (Get params (cache w')).1 = Some s).
  { unfold Init in HI.
    destruct (Get params (cache w)) as [[d|] cache'] eqn:HG.
    - inversion HI; subst. simpl. unfold Get in HG |- *.
      destruct (assoc params (entries (cache w))); [|done].
      inversion HG; subst. simpl. by rewrite decide_True.
    - assert (cache' = cache w) as ->.
      { pose proof (Get_miss_unchanged params (cache w)) as H.
        rewrite HG in H. by apply H. }
      rewrite !smb_call_eq in HI. simpl in HI.
      repeat match type of HI with
             | context [match r_err ?r with _ => _ end] =>
                 destruct (r_err r); [done|]; simpl in HI;
                 rewrite ?smb_call_eq in HI; simpl in HI
             end.
      match type of HI with context [mount_all respond ?a ?b ?c ?d] =>
        destruct (mount_all respond a b c d) as [sh w1] eqn:Hm end.
      inversion HI; subst; clear HI.
      apply mount_all_spec in Hm as (evm & _ & Hc & _).
      rewrite smb_cache_Set_cache, Hc. simpl. by apply Get_Set. }
  unfold Init. destruct (Get params (cache w')) as [c0 c]. simpl in Hhit.
  subst c0. by exists c.
Qed.

(** X9.  When [Init] fails, the error is that of the first call that failed
    (connecting, session setup or share enumeration), passed on as it is;
    no adapter is returned, nothing is mounted and the cache is as before. *)
Theorem Init_failure params w err :
  (Init respond params w).1.2 = Some err ->
  (Init respond params w).1.1 = None /\
  cache (Init respond params w).2 = cache w /\
  exists evs c r,
    log (Init respond params w).2 = log w ++ evs ++ [(c, r)] /\
    r_err r = Some err /\
    Forall (fun ev => r_err ev.2 = None /\
                      forall sess name, ev.1 <> Session_Mount sess name) evs /\
    (forall sess name, c <> Session_Mount sess name).
Proof.
  unfold Init. destruct (Get params (cache w)) as [[d|] cache'] eqn:HG; [done|].
  assert (cache' = cache w) as ->.
  { pose proof (Get_miss_unchanged params (cache w)) as H.
    rewrite HG in H. by apply H. }
  rewrite !smb_call_eq. cbn [fst snd remote log cache next].
  destruct (r_err _) as [e1|] eqn:He1.
  { intros H. inversion H; subst. repeat split; try done.
    eexists [], _, _. split; [done|]. split; [exact He1|]. by split. }
  destruct (r_err (respond (smb2_Dial _ _ _) _).1) as [e2|] eqn:He2.
  { intros H. inversion H; subst. repeat split; try done.
    eexists [_], _, _. rewrite <- app_assoc. split; [done|].
    split; [exact He2|]. split; [|done].
    apply Forall_singleton. by split. }
  cbn [alloc]. rewrite ?smb_call_eq. cbn [fst snd remote log cache next].
  destruct (r_err (respond (Session_ListSharenames _) _).1) as [e3|] eqn:He3.
  { intros H. inversion H; subst. repeat split; try done.
    eexists [_; _], _, _. rewrite <- !app_assoc. split; [done|].
    split; [exact He3|]. split; [|done].
    apply Forall_cons. split; [by split|]. apply Forall_singleton. by split. }
  by destruct (mount_all _ _ _ _ _).
Qed.

(** X10.  On a cache miss [Init] connects to the given host on the given port,
    or on port 445 when none is given, with a timeout of ten seconds, and
    then opens the session as the given user, or as [Guest] when none is
    given. *)
Theorem Init_dials params w :
  (Get params (cache w)).1 = None ->
  let port := if decide (param params "port" = "") then "445"
              else param params "port" in
  let user := if decide (param params "username" = "") then "Guest"
              else param params "username" in
  exists r evs,
    log (Init respond params w).2
    = log w ++ (net_DialTimeout (param params "host" +:+ ":" +:+ port) 10, r)
              :: evs /\
    (r_err r = None ->
     exists r2 evs2,
       evs = (smb2_Dial user (param params "password")
                        (param params "domain"), r2) :: evs2).
Proof.
  intros Hmiss port user. unfold Init.
  pose proof (Get_miss_unchanged _ _ Hmiss) as Hc.
  destruct (Get params (cache w)) as [c0 cache'] eqn:HG. simpl in *. subst.
  rewrite !smb_call_eq. cbn [fst snd remote log cache next].
  fold port. fold user.
  destruct (r_err _) as [e1|] eqn:He1.
  { eexists _, []. split; [done|]. by rewrite He1. }
  destruct (r_err (respond (smb2_Dial _ _ _) _).1) as [e2|] eqn:He2.
  { eexists _, [_]. rewrite <- app_assoc. split; [done|]. eauto. }
  cbn [alloc]. rewrite ?smb_call_eq. cbn [fst snd remote log cache next].
  destruct (r_err (respond (Session_ListSharenames _) _).1) as [e3|] eqn:He3.
  { eexists _, [_; _]. rewrite <- !app_assoc. split; [done|]. eauto. }
  match goal with |- context [mount_all respond ?a ?b ?c ?d] =>
    destruct (mount_all respond a b c d) as [sh w1] eqn:Hm end.
  apply mount_all_spec in Hm as (evm & Hlog & _).
  match goal with |- context [cache_Set respond ?p ?b ?w0] =>
    destruct (smb_cache_Set_log respond p b w0) as (eve & Hle & _) end.
  cbn [snd]. rewrite Hle, Hlog. cbn [log].
  eexists _, (_ :: _ :: evm ++ eve). rewrite <- !app_assoc. split; [done|].
  eauto.
Qed.

End Calls.

(** *** Rename and share names *)

Lemma toSambaPath_lookup smb path h p :
  toSambaPath smb path = (Some h, p, None) ->
  share smb !! hd "" (Split (Trim path "/") "/") = Some h.
Proof.
  unfold toSambaPath. destruct (decide _); [done|].
  destruct (share smb !! _) as [h'|]; [|done]. by intros [= ->].
Qed.

(** X11.  In an adapter built by [Init], two paths resolve to the same share
    handle exactly when their first segments name the same share: [Mv]
    compares handles, and so rejects a rename exactly when the two paths
    name different shares. *)
Theorem Mv_rejected_iff_names_differ {S} (respond : Cmd -> S -> Reply * S)
    params (w : World Samba Event S) s w' from to h1 p1 h2 p2 :
  (Get params (cache w)).1 = None ->
  Init respond params w = (Some s, None, w') ->
  toSambaPath s from = (Some h1, p1, None) ->
  toSambaPath s to = (Some h2, p2, None) ->
  (h1 <> h2 <->
   hd "" (Split (Trim from "/") "/") <> hd "" (Split (Trim to "/") "/")) /\
  (forall w0,
     hd "" (Split (Trim from "/") "/") <> hd "" (Split (Trim to "/") "/") ->
     Mv respond s from to w0 = (Some ErrNotImplemented, w0)).
Proof.
  intros Hmiss HI Hf Ht.
  pose proof (Init_distinct_handles respond params w s w' Hmiss HI) as Hd.
  pose proof (toSambaPath_lookup _ _ _ _ Hf) as Hlf.
  pose proof (toSambaPath_lookup _ _ _ _ Ht) as Hlt.
  assert (Hiff : h1 <> h2 <->
    hd "" (Split (Trim from "/") "/") <> hd "" (Split (Trim to "/") "/")).
  { split.
    - intros Hne Heq. rewrite Heq in Hlf. congruence.
    - intros Hne ->. apply Hne. by eapply Hd. }
  split; [exact Hiff|].
  intros w0 Hne. unfold Mv. rewrite Hf, Ht.
  rewrite decide_True; [done|]. by apply Hiff.
Qed.

Lemma Mv_rejected_iff_names_differ_witness :
  (Get ∅ (cache smb_world0)).1 = None /\
  Mv friendly two_shares "shareA/x" "shareB/x" smb_world0
  = (Some ErrNotImplemented, smb_world0).
Proof.
  split; [reflexivity|].
  apply (proj2 (Mv_rejected_iff_names_differ friendly ∅ smb_world0 two_shares
                  (Init friendly ∅ smb_world0).2 "shareA/x" "shareB/x"
                  1%nat "x" 2%nat "x" eq_refl eq_refl eq_refl eq_refl)).
  vm_compute. discriminate.
Defined.

(** *** Touch and Save *)

(** X12.  [Touch] makes the calls of [Save] with an empty source and leaves the
    same world; its result is that of [Save] passed through
    [fromSambaErr], so one succeeds exactly when the other does. *)
Theorem Touch_follows_Save {S} (respond : Cmd -> S -> Reply * S) smb path
    (w : World Samba Event S) :
  (Touch respond smb path w).2 = (Save respond smb path (NewReader "") w).2 /\
  (Touch respond smb path w).1
  = fromSambaErr (Save respond smb path (NewReader "") w).1 /\
  ((Touch respond smb path w).1 = None <->
   (Save respond smb path (NewReader "") w).1 = None).
Proof.
  rewrite Touch_Save_empty. cbn [fst snd]. split; [done|]. split; [done|].
  apply fromSambaErr_normal.
Qed.

Lemma unmounted_share_no_call_witness :
  share two_shares !! hd "" (Split (Trim "shareC/x" "/") "/") = None /\
  Rm friendly two_shares "shareC/x" smb_world0 = (Some ErrNotFound, smb_world0) /\
  Mv friendly two_shares "shareA/y" "shareC/x" smb_world0
  = (Some ErrNotFound, smb_world0).
Proof.
  assert (H : share two_shares !! hd "" (Split (Trim "shareC/x" "/") "/") = None)
    by (vm_compute; reflexivity).
  split; [exact H|].
  destruct (unmounted_share_no_call friendly two_shares "shareC/x" smb_world0 H)
    as (_ & _ & _ & Hrm & _ & _ & _ & Hmv).
  split; [exact Hrm|]. apply Hmv. vm_compute. reflexivity.
Defined.

Lemma handles_are_closed_witness :
  closes_its_handle smb_world0
    (Save friendly two_shares "shareA/f" (NewReader "abc") smb_world0).2.
Proof.
  apply (handles_are_closed friendly two_shares "shareA/f" (NewReader "abc")
           smb_world0).
Defined.

Lemma Init_twice_witness :
  (0 < capacity (cache smb_world0))%nat /\
  Init friendly ∅ smb_world0
  = (Some two_shares, None, (Init friendly ∅ smb_world0).2) /\
  exists c,
    Init friendly ∅ (Init friendly ∅ smb_world0).2
    = (Some two_shares, None,
       mkWorld c (next (Init friendly ∅ smb_world0).2)
               (remote (Init friendly ∅ smb_world0).2)
               (log (Init friendly ∅ smb_world0).2)).
Proof.
  assert (Hc : (0 < capacity (cache smb_world0))%nat) by (simpl; lia).
  assert (HI : Init friendly ∅ smb_world0
               = (Some two_shares, None, (Init friendly ∅ smb_world0).2))
    by (vm_compute; reflexivity).
  split; [exact Hc|]. split; [exact HI|].
  exact (Init_twice friendly ∅ smb_world0 two_shares _ Hc HI).
Defined.

Lemma Init_failure_witness :
  (Init list_fails ∅ smb_world0).1.2 = Some (TransportError "broken pipe") /\
  (Init list_fails ∅ smb_world0).1.1 = None /\
  cache (Init list_fails ∅ smb_world0).2 = cache smb_world0.
Proof.
  assert (H : (Init list_fails ∅ smb_world0).1.2
              = Some (TransportError "broken pipe"))
    by (vm_compute; reflexivity).
  split; [exact H|].
  destruct (Init_failure list_fails ∅ smb_world0 _ H) as (H1 & H2 & _).
  by split.
Defined.

Lemma Init_dials_witness :
  (Get ∅ (cache smb_world0)).1 = None /\
  exists r evs,
    log (Init friendly ∅ smb_world0).2
    = log smb_world0 ++ (net_DialTimeout ":445" 10, r) :: evs /\
    (r_err r = None ->
     exists r2 evs2, evs = (smb2_Dial "Guest" "" "", r2) :: evs2).
Proof.
  split; [reflexivity|].
  exact (Init_dials friendly ∅ smb_world0 eq_refl).
Defined.

Lemma Init_distinct_handles_witness :
  (Get ∅ (cache smb_world0)).1 = None /\
  distinct_handles (share two_shares).
Proof.
  split; [reflexivity|].
  apply (Init_distinct_handles friendly ∅ smb_world0 two_shares
           (Init friendly ∅ smb_world0).2); [reflexivity|].
  vm_compute. reflexivity.
Defined.

End SambaExtra.

(** ** More on the FTP adapter *)

Module FtpExtra.
Import Common GoStrings PathSpec Ftp FtpServer CacheFacts Examples GoStringsFacts FtpFacts.

(** *** The parameters of the connection *)

Lemma prefix_app (p s : string) : String.prefix p (p +:+ s) = true.
Proof.
  induction p as [|c p IH]; [by destruct s|].
  change (String.prefix (String c p) (String c (p +:+ s)) = true).
  simpl. by destruct (ascii_dec c c).
Qed.

Lemma prefix_inv (p s : string) :
  String.prefix p s = true -> exists t, s = p +:+ t.
Proof.
  revert s. induction p as [|c p IH]; intros s H; [by exists s|].
  destruct s as [|d s]; [done|]. simpl in H.
  destruct (ascii_dec c d) as [<-|]; [|done].
  destruct (IH _ H) as [t ->]. by exists t.
Qed.

Lemma TrimPrefix_app (pre s : string) : TrimPrefix (pre +:+ s) pre = s.
Proof.
  unfold TrimPrefix, HasPrefix. rewrite prefix_app. apply drop_length_app.
Qed.

(** X13.  The address that [Init] dials: the host without one leading
    ["ftp://"], a colon, the port. *)
Theorem Init_dial_address (params : gmap string string) :
  (forall h, params !! "hostname" = Some ("ftp://" +:+ h) ->
     dial_addr (fill_defaults params)
     = h +:+ ":" +:+ param (fill_defaults params) "port") /\
  (forall h, params !! "hostname" = Some h -> h <> "" ->
     HasPrefix h "ftp://" = false ->
     dial_addr (fill_defaults params)
     = h +:+ ":" +:+ param (fill_defaults params) "port").
Proof.
  split.
  - intros h Hh. unfold dial_addr, Sprintf_host_port.
    assert (Hp : param (fill_defaults params) "hostname" = "ftp://" +:+ h).
    { unfold param. by rewrite (fill_defaults_keeps _ _ _ Hh). }
    by rewrite Hp, TrimPrefix_app.
  - intros h Hh Hne Hpre. unfold dial_addr, Sprintf_host_port.
    assert (Hp : param (fill_defaults params) "hostname" = h).
    { unfold param. by rewrite (fill_defaults_keeps _ _ _ Hh). }
    rewrite Hp. unfold TrimPrefix. by rewrite Hpre.
Qed.

Lemma Init_dial_address_witness :
  dial_addr (fill_defaults {["hostname" := "ftp://files.example.org"]})
  = "files.example.org:21".
Proof.
  pose proof (proj1 (Init_dial_address
    {["hostname" := "ftp://files.example.org"]}) "files.example.org") as H.
  vm_compute in H. vm_compute. apply H. reflexivity.
Defined.

Lemma Atoi_range (s : string) n : Atoi s = Some n -> - 2 ^ 63 <= n < 2 ^ 63.
Proof.
  unfold Atoi.
  match goal with |- match ?v with _ => _ end = _ -> _ => destruct v as [m|] end;
    [|done].
  destruct ((- 2 ^ 63 <=? m) && (m <? 2 ^ 63)) eqn:E; [|done].
  intros H. inversion H; subst. apply andb_true_iff in E as [E1 E2].
  apply Z.leb_le in E1. apply Z.ltb_lt in E2. lia.
Qed.

(** X14.  The number of connections per host is always a positive machine
    integer: a ["conn"] that is missing, does not read as an integer, or
    is not positive gives five. *)
Theorem conn_of_positive_or_five (params : gmap string string) :
  0 < conn_of params < 2 ^ 63 /\
  (Atoi (param params "conn") = None -> conn_of params = 5) /\
  (forall i, Atoi (param params "conn") = Some i -> i <= 0 ->
             conn_of params = 5).
Proof.
  unfold conn_of. split; [|split].
  - destruct (decide _); [|lia].
    destruct (Atoi _) as [i|] eqn:Ha; [|lia].
    apply Atoi_range in Ha. destruct (0 <? i) eqn:E; [|lia].
    apply Z.ltb_lt in E. lia.
  - intros ->. by destruct (decide _).
  - intros i -> Hi. destruct (decide _); [|done].
    destruct (0 <? i) eqn:E; [|done]. apply Z.ltb_lt in E. lia.
Qed.

(** X15.  [Init] writes at most the keys [hostname], [port], [username] and
    [password], each only where the map had nothing (or the empty text),
    and what it writes is final: filling in the defaults again changes
    nothing. *)
Theorem fill_defaults_stable (params : gmap string string) :
  fill_defaults (fill_defaults params) = fill_defaults params /\
  (forall k, k <> "hostname" -> k <> "port" -> k <> "username" ->
             k <> "password" -> fill_defaults params !! k = params !! k) /\
  (forall k, param params k <> "" ->
             fill_defaults params !! k = params !! k) /\
  param (fill_defaults params) "hostname" <> "" /\
  param (fill_defaults params) "port" <> "" /\
  param (fill_defaults params) "username" <> "".
Proof.
  split; [apply fill_defaults_idem|].
  split; [apply fill_defaults_other|].
  split.
  - intros k Hk. unfold param in Hk.
    destruct (params !! k) as [v|] eqn:Hv; [|done].
    by apply fill_defaults_keeps.
  - rewrite fill_defaults_steps. cbv zeta.
    set (p := default_to "username" _ _).
    assert (Hu : param p "username" <> "") by (by apply default_to_set).
    assert (Hpo : param p "port" <> "").
    { unfold p. rewrite default_to_param_other by done.
      by apply default_to_set. }
    assert (Hho : param p "hostname" <> "").
    { unfold p. rewrite !default_to_param_other by done.
      by apply default_to_set. }
    destruct (decide _); [|done].
    rewrite !param_insert.
    rewrite (decide_False (P := "password" = "hostname")) by done.
    rewrite (decide_False (P := "password" = "port")) by done.
    by rewrite (decide_False (P := "password" = "username")) by done.
Qed.

(** *** The cache of the FTP adapter *)

Lemma Forall_without {V} (P : gmap string string * V -> Prop) k l :
  Forall P l -> Forall P (without k l).
Proof.
  intros H. unfold without. apply Forall_forall. intros x Hx.
  apply list_elem_of_filter in Hx as [_ Hx].
  eapply Forall_forall in H; eauto.
Qed.

Lemma assoc_Some_in {V} k (l : list (gmap string string * V)) v :
  assoc k l = Some v -> (k, v) ∈ l.
Proof.
  induction l as [|[k0 v0] l IH]; [done|]. simpl.
  destruct (decide (k0 = k)) as [->|].
  - intros H. inversion H; subst. apply elem_of_cons. by left.
  - intros H. apply elem_of_cons. right. auto.
Qed.

Section Cache.
Context {S : Type} (respond : Cmd -> S -> Reply * S).
Implicit Types (w : World Ftp Event S) (f : Ftp).

(** X16.  Every key of the cache has the defaults filled in: [Init] keeps this,
    and therefore a lookup with a map that still lacks a default never
    hits, so that such a call always dials. *)
Theorem cache_keys_filled params w :
  keys_filled (cache w) ->
  keys_filled (cache (Init respond params w).2) /\
  (fill_defaults params <> params ->
   (Get params (cache w)).1 = None /\
   exists r evs,
     log (Init respond params w).2
     = log w ++ (DialConfig (configWithoutTLS (fill_defaults params))
                            (dial_addr (fill_defaults params)), r) :: evs).
Proof.
  intros Hk.
  assert (Hmiss : fill_defaults params <> params ->
                  (Get params (cache w)).1 = None).
  { intros Hne. unfold Get.
    destruct (assoc params (entries (cache w))) as [v|] eqn:Ha; [|done].
    apply assoc_Some_in in Ha. unfold keys_filled in Hk.
    eapply Forall_forall in Hk; [|exact Ha]. done. }
  split.
  - destruct (Get params (cache w)).1 as [d|] eqn:HG.
    + rewrite (Init_hit _ _ _ _ HG). cbn [snd cache]. unfold Get in *.
      destruct (assoc params (entries (cache w))) as [v|] eqn:Ha; [|done].
      cbn [snd entries]. unfold keys_filled in *. apply Forall_cons. split.
      * apply assoc_Some_in in Ha. eapply Forall_forall in Hk; [|exact Ha].
        done.
      * by apply Forall_without.
    + rewrite (Init_miss _ _ _ HG). cbv zeta.
      destruct (r_err _); [done|]. destruct (r_err _); [done|].
      cbn [snd]. rewrite cache_Set_cache. cbn [cache fst Set_ entries].
      unfold keys_filled. cbn [entries]. apply Forall_take.
      apply Forall_cons. split; [apply fill_defaults_idem|].
      by apply Forall_without.
  - intros Hne. split; [by apply Hmiss|].
    rewrite (Init_miss _ _ _ (Hmiss Hne)). cbv zeta.
    destruct (r_err _); [by eexists _, []|].
    destruct (r_err _); [by eexists _, [_; _]|].
    match goal with |- context [cache_Set respond ?p ?b ?w0] =>
      destruct (cache_Set_log respond p b w0) as (evs & Hl & _) end.
    cbn [snd]. rewrite Hl. cbn [log]. rewrite <- app_assoc.
    by eexists _, (_ :: evs).
Qed.

End Cache.

Lemma cache_keys_filled_witness :
  keys_filled (cache ftp_world0) /\
  keys_filled (cache (Init plain ∅ ftp_world0).2) /\
  (Get ∅ (cache (Init plain ∅ ftp_world0).2)).1 = None.
Proof.
  assert (H0 : keys_filled (cache ftp_world0)) by apply Forall_nil_2.
  split; [exact H0|].
  pose proof (proj1 (cache_keys_filled plain ∅ ftp_world0 H0)) as H1.
  split; [exact H1|].
  apply (proj2 (cache_keys_filled plain ∅ (Init plain ∅ ftp_world0).2 H1)).
  vm_compute. discriminate.
Defined.

(** X17.  After a successful [Init], a call with the map as that [Init] left it
    (the defaults written into it) returns the same adapter from the cache,
    without any call to the remote side. *)
Theorem Init_reuses_filled_map {S} (respond : Cmd -> S -> Reply * S)
    params (w : World Ftp Event S) b p' w' :
  (0 < capacity (cache w))%nat ->
  Init respond params w = (Some b, None, p', w') ->
  (Init respond p' w').1 = (Some b, None, p') /\
  log (Init respond p' w').2 = log w' /\
  remote (Init respond p' w').2 = remote w' /\
  next (Init respond p' w').2 = next w'.
Proof.
  intros Hcap HI.
  by rewrite (Init_again_with_filled_map respond params w b p' w' Hcap HI).
Qed.

Lemma Init_reuses_filled_map_witness :
  (0 < capacity (cache ftp_world0))%nat /\
  Init plain ∅ ftp_world0
  = (Some (mkFtp 0), None, fill_defaults ∅, (Init plain ∅ ftp_world0).2) /\
  (Init plain (fill_defaults ∅) (Init plain ∅ ftp_world0).2).1
  = (Some (mkFtp 0), None, fill_defaults ∅) /\
  log (Init plain (fill_defaults ∅) (Init plain ∅ ftp_world0).2).2
  = log (Init plain ∅ ftp_world0).2.
Proof.
  assert (Hc : (0 < capacity (cache ftp_world0))%nat) by (simpl; lia).
  assert (HI : Init plain ∅ ftp_world0
    = (Some (mkFtp 0), None, fill_defaults ∅, (Init plain ∅ ftp_world0).2))
    by (vm_compute; reflexivity).
  split; [exact Hc|]. split; [exact HI|].
  destruct (Init_reuses_filled_map plain ∅ ftp_world0 (mkFtp 0)
              (fill_defaults ∅) (Init plain ∅ ftp_world0).2 Hc HI)
    as (H1 & H2 & _).
  by split.
Defined.

(** *** Deleting stays below the given path *)

Lemma HasPrefix_refl (s : string) : HasPrefix s s = true.
Proof.
  unfold HasPrefix. rewrite <- (append_empty_r s) at 2. apply prefix_app.
Qed.

Lemma HasPrefix_app (p x : string) : HasPrefix (p +:+ x) p = true.
Proof. apply prefix_app. Qed.

Lemma HasPrefix_trans (q p' p : string) :
  HasPrefix q p' = true -> HasPrefix p' p = true -> HasPrefix q p = true.
Proof.
  unfold HasPrefix. intros [t ->]%prefix_inv [t' ->]%prefix_inv.
  rewrite app_assoc_s. apply prefix_app.
Qed.

Lemma below_child (path child : string) client ev :
  HasPrefix child path = true -> below child client ev -> below path client ev.
Proof.
  intros Hc (q & Hq & Hp). exists q. split; [done|].
  by eapply HasPrefix_trans.
Qed.

Section Below.
Context {S : Type} (respond : Cmd -> S -> Reply * S).
Implicit Types (w : World Ftp Event S) (f : Ftp).

Lemma quiet_refl path client w : quiet path client w w.
Proof. repeat split. exists []. by rewrite app_nil_r. Qed.

Lemma quiet_trans path client w1 w2 w3 :
  quiet path client w1 w2 -> quiet path client w2 w3 -> quiet path client w1 w3.
Proof.
  intros (Hc1 & Hn1 & evs1 & Hl1 & H1) (Hc2 & Hn2 & evs2 & Hl2 & H2).
  split; [congruence|]. split; [congruence|].
  exists (evs1 ++ evs2). rewrite Hl2, Hl1, <- app_assoc. split; [done|].
  by apply Forall_app.
Qed.

Lemma quiet_call path client c w :
  below path client (c, (call respond c w).1) ->
  quiet path client w (call respond c w).2.
Proof.
  intros Hb. rewrite call_eq in *. cbn [fst snd] in *.
  repeat split. eexists [_]. split; [done|]. by apply Forall_singleton.
Qed.

Lemma Rm_entries_quiet (rm : string -> World Ftp Event S
                              -> option (option error * World Ftp Event S))
    path client entries :
  (forall p w r w', HasPrefix p path = true -> rm p w = Some (r, w') ->
                    quiet p client w w') ->
  forall w r w',
    Rm_entries rm path entries w = Some (r, w') -> quiet path client w w'.
Proof.
  intros Hrm. induction entries as [|entry rest IH]; intros w r w' H; simpl in H.
  - inversion H; subst. apply quiet_refl.
  - destruct (rm _ w) as [[err w1]|] eqn:Hc; [|done].
    assert (Hq : quiet path client w w1).
    { apply Hrm in Hc.
      - destruct Hc as (Hc1 & Hn1 & evs & Hl & Hall).
        split; [done|]. split; [done|]. exists evs. split; [done|].
        eapply Forall_impl; [exact Hall|]. intros ev. apply below_child.
        destruct (IsDir entry); apply HasPrefix_app.
      - destruct (IsDir entry); apply HasPrefix_app. }
    destruct (transformError err).
    + inversion H; subst. exact Hq.
    + eapply quiet_trans; [exact Hq|]. by eapply IH.
Qed.

(** X18.  Whatever the remote side answers, [Rm] only lists and deletes, through
    its own client, and only on paths that start with the path it was
    given; it touches neither the cache nor the allocator. *)
Theorem Rm_stays_below d f path w r w' :
  Rm respond d f path w = Some (r, w') ->
  cache w' = cache w /\ next w' = next w /\
  exists evs, log w' = log w ++ evs /\ Forall (below path (client f)) evs.
Proof.
  change (Rm respond d f path w = Some (r, w') -> quiet path (client f) w w').
  revert path w r w'. induction d as [|d IH]; intros path w r w' H; [done|].
  destruct (isDirectory path) eqn:Hp.
  - rewrite (Rm_dir _ _ _ _ _ Hp) in H. cbv zeta in H.
    assert (Hq1 : quiet path (client f) w
                    (call respond (Client_ReadDir (client f) path) w).2).
    { apply quiet_call. exists path. split; [by left|]. apply HasPrefix_refl. }
    destruct (transformError _).
    + inversion H; subst. exact Hq1.
    + destruct (Rm_entries _ _ _ _) as [[[e|] w1]|] eqn:Hloop; [| |done].
      * inversion H; subst. eapply quiet_trans; [exact Hq1|].
        eapply Rm_entries_quiet; [|exact Hloop].
        intros p w0 r0 w0' _ H0. by eapply IH.
      * inversion H; subst. eapply quiet_trans; [exact Hq1|].
        eapply quiet_trans.
        -- eapply Rm_entries_quiet; [|exact Hloop].
           intros p w0 r0 w0' _ H0. by eapply IH.
        -- apply quiet_call. exists path. split; [by right; right|].
           apply HasPrefix_refl.
  - rewrite (Rm_file _ _ _ _ _ Hp) in H. inversion H; subst.
    apply quiet_call. exists path. split; [by right; left|].
    apply HasPrefix_refl.
Qed.

End Below.

Lemma Rm_stays_below_witness :
  Rm guarded 3 (mkFtp 0) "/docs/" ftp_world0
  = Some (Some (FtpError 550 "Permission denied"),
          (default (None, ftp_world0)
                   (Rm guarded 3 (mkFtp 0) "/docs/" ftp_world0)).2) /\
  exists evs,
    log (default (None, ftp_world0)
                 (Rm guarded 3 (mkFtp 0) "/docs/" ftp_world0)).2
    = log ftp_world0 ++ evs /\
    Forall (below "/docs/" 0) evs.
Proof.
  assert (H : Rm guarded 3 (mkFtp 0) "/docs/" ftp_world0
    = Some (Some (FtpError 550 "Permission denied"),
          (default (None, ftp_world0)
                   (Rm guarded 3 (mkFtp 0) "/docs/" ftp_world0)).2))
    by (vm_compute; reflexivity).
  split; [exact H|].
  exact (proj2 (proj2 (Rm_stays_below guarded 3%nat (mkFtp 0) "/docs/"
                         ftp_world0 _ _ H))).
Defined.

(** *** Deleting one file on the server tree *)

Lemma in_paths (x : string * bool) (l : list (string * bool)) :
  x ∈ l -> x.1 ∈ l.*1.
Proof. intros H. apply list_elem_of_fmap. by exists x. Qed.

Lemma nodes_remove_file b (fs : forest) p :
  NoDup (nodes b fs).*1 -> (p, false) ∈ nodes b fs ->
  nodes b fs ≡ₚ (p, false) :: nodes b (remove b fs p).
Proof.
  revert b. induction fs as [|n r IHr|n cs IHcs r IHr]; intros b Hnd Hin.
  - by apply elem_of_nil in Hin.
  - apply NoDup_cons_file in Hnd as [Hh Hr]. simpl in *.
    destruct (decide (b +:+ n = p)) as [<-|Hne].
    + by rewrite (remove_notin _ r) by done.
    + apply elem_of_cons in Hin as [Heq|Hin]; [by inversion Heq|].
      simpl. rewrite (IHr _ Hr Hin) at 1. by solve_Permutation.
  - apply NoDup_cons_dir in Hnd as (Hh1 & Hh2 & Hcs & Hr & Hdis). simpl in *.
    apply elem_of_cons in Hin as [Heq|Hin]; [by inversion Heq|].
    apply elem_of_app in Hin as [Hin|Hin].
    + pose proof (in_paths _ _ Hin) as Hp. simpl in Hp.
      rewrite decide_False by (intros <-; done). simpl.
      rewrite (remove_notin _ r p) by auto.
      rewrite (IHcs _ Hcs Hin) at 1. by solve_Permutation.
    + pose proof (in_paths _ _ Hin) as Hp. simpl in Hp.
      rewrite decide_False by (intros <-; done). simpl.
      rewrite (remove_notin _ cs p) by (intros Hc; by apply (Hdis p)).
      rewrite (IHr _ Hr Hin) at 1. by solve_Permutation.
Qed.

(** X19.  [Rm] on a file of a well-formed server tree removes this file and
    nothing else, with a single [Delete]. *)
Theorem Rm_removes_file ack denied fs p d f (w : World Ftp Event forest) :
  transformError ack = None ->
  wf fs -> remote w = fs -> (p, false) ∈ nodes "" fs -> denied p = false ->
  Rm (FtpServer.respond ack denied) (Datatypes.S d) f p w =
  Some (None,
        mkWorld (cache w) (next w) (remove "" fs p)
          (log w ++ [(Client_Delete (client f) p, mkReply ack [] "")])) /\
  nodes "" fs ≡ₚ (p, false) :: nodes "" (remove "" fs p).
Proof.
  intros Hack Hwf Hrem Hin Hden. split.
  - by apply Rm_file_tree.
  - apply nodes_remove_file; [apply Hwf|done].
Qed.

Lemma Rm_removes_file_witness :
  Rm plain 1 (mkFtp 0) "/docs/old/c.txt" ftp_world0 =
  Some (None,
        mkWorld (NewAppCache 2) 0
          (ConsDir ""
             (ConsDir "docs"
                (ConsFile "a.txt"
                   (ConsDir "old" (ConsFile "b.txt" Nil) (ConsFile "z.txt" Nil)))
                (ConsFile "readme" Nil))
             Nil)
          [(Client_Delete 0 "/docs/old/c.txt", mkReply None [] "")]).
Proof.
  assert (Hin : ("/docs/old/c.txt", false) ∈ nodes "" example_tree).
  { apply (bool_decide_unpack _). vm_compute. exact I. }
  pose proof (proj1 (Rm_removes_file None (fun _ => false) example_tree
                       "/docs/old/c.txt" 0%nat (mkFtp 0) ftp_world0
                       eq_refl example_tree_wf eq_refl Hin eq_refl)) as H.
  vm_compute in H. vm_compute. exact H.
Defined.

End FtpExtra.
